(** * network-operator: the reconciliation engine

    A shallow embedding of the state manager ([pkg/state/manager.go]), of the
    CNI-plugins state ([stateCNIPlugins]) and of the manifest renderer, with
    the properties of the engine's specification proved over it.

    Conventions.  Go methods keep their receiver-qualified names
    ([stateManager_SyncState] is the method [SyncState] of [stateManager]).  A Go pair
    [(value, error)] is a pair whose second component is an [option error]
    ([None] is [nil]).  A [nil] slice and an empty slice are both [[]].
    Calls that touch the cluster are computations of the monad [Eff], which
    threads the cluster state and records the calls that were made.  Logging
    is left out: no result depends on it. *)

From Stdlib Require Import Ascii ZArith.
From stdpp Require Import base option list gmap strings fin_maps sorting.

Set Default Proof Using "Type".

(** ** Errors ([github.com/pkg/errors]) *)

Inductive error : Type :=
| errors_New (msg : string)
| errors_Wrap (err : error) (msg : string).

(** [errors.Cause]: the error at the bottom of a chain of [errors.Wrap]. *)
Fixpoint errors_Cause (err : error) : error :=
  match err with
  | errors_New msg => errors_New msg
  | errors_Wrap cause _ => errors_Cause cause
  end.

(** ** Sync status *)

(** Modelled from the spec: the declaration of the status type is not part of
    the sources at hand; section 3 of the specification names the statuses
    Ready, NotReady and Error, and these are the three constants the manager
    and the CNI-plugins state use. The constants of a Go type do not close
    it, and a state is any implementation of an interface: its [Sync] may
    return a value of the type that is none of the three constants. Such a
    value is [SyncStateOther], with the text that tells it apart. *)
Inductive SyncState : Type :=
| SyncStateReady
| SyncStateNotReady
| SyncStateError
| SyncStateOther (value : string).

#[global] Instance SyncState_eq_dec : EqDecision SyncState.
Proof. solve_decision. Defined.

(** ** Effects: cluster state and a record of calls *)

(** A computation reads and updates a world [W] (the cluster as seen through
    the API client) and emits the list of calls [E] it made, oldest first. *)
Definition Eff (W E A : Type) : Type := W → A * W * list E.

Definition eff_ret {W E A} (a : A) : Eff W E A := λ w, (a, w, []).

Definition eff_bind {W E A B} (f : A → Eff W E B) (m : Eff W E A) : Eff W E B :=
  λ w, let '(a, w1, t1) := m w in
       let '(b, w2, t2) := f a w1 in
       (b, w2, t1 ++ t2).

#[global] Instance Eff_ret {W E} : MRet (Eff W E) := @eff_ret W E.
#[global] Instance Eff_bind {W E} : MBind (Eff W E) := @eff_bind W E.

(** [call e f]: perform the world transformer [f], recorded as the call [e]. *)
Definition call {W E A} (e : A → E) (f : W → A * W) : Eff W E A :=
  λ w, let '(a, w') := f w in (a, w', [e a]).

Definition result_of {W E A} (r : A * W * list E) : A := r.1.1.
Definition world_of {W E A} (r : A * W * list E) : W := r.1.2.
Definition calls_of {W E A} (r : A * W * list E) : list E := r.2.

(** ** Results of the manager *)

Module Result.
(** [Result]: the outcome of a single [State.Sync] invocation. *)
Record t : Type := mk {
  StateName : string;
  Status : SyncState;
  ErrInfo : option error
}.
End Result.

Module Results.
(** [Results]: the outcomes of all states and the global status. *)
Record t : Type := mk {
  Status : SyncState;
  StatesStatus : list Result.t
}.
End Results.

(** [source.Kind] of controller-runtime: a watch descriptor, given by the
    name of the Go type it watches. *)
Record source_Kind : Type := mk_source_Kind { Type_ : string }.

#[global] Instance source_Kind_eq_dec : EqDecision source_Kind.
Proof. solve_decision. Defined.

(** ** The state manager *)

Module Manager.
Section Manager.
Context {CustomResource InfoCatalog World : Type}.

(** The [State] interface.  [Sync] acts on the cluster; the other three
    methods are constant. *)
Record State : Type := mk_State {
  Name : string;
  Description : string;
  Sync : CustomResource → InfoCatalog → World → (SyncState * option error) * World;
  GetWatchSources : gmap string source_Kind
}.

(** [stateManager]; the [client] field is not used by its methods. *)
Record stateManager : Type := mk_stateManager { states : list State }.

(** The call the manager makes: [state.Sync(customResource, infoCatalog)],
    recorded with the state it was made on. *)
Definition invoke_Sync (state : State) (customResource : CustomResource)
    (infoCatalog : InfoCatalog) : Eff World State (SyncState * option error) :=
  call (λ _, state) (Sync state customResource infoCatalog).

(** Body of the loop of [SyncState] (manager.go, lines 88-101) on the loop
    state [(managerResult, statesReady)]. *)
Definition SyncState_body (customResource : CustomResource) (infoCatalog : InfoCatalog)
    (state : State) (acc : Results.t * bool) : Eff World State (Results.t * bool) :=
  let '(managerResult, statesReady) := acc in
  '(ss, err) ← invoke_Sync state customResource infoCatalog;
  let result := Result.mk (Name state) ss err in
  let managerResult :=
    Results.mk (Results.Status managerResult)
               (Results.StatesStatus managerResult ++ [result]) in
  let statesReady :=
    if bool_decide (Result.Status result = SyncStateNotReady)
       || bool_decide (Result.Status result = SyncStateError)
    then false else statesReady in
  mret (managerResult, statesReady).

(** [for _, state := range smgr.states { ... }] *)
Fixpoint SyncState_loop (customResource : CustomResource) (infoCatalog : InfoCatalog)
    (sts : list State) (acc : Results.t * bool) : Eff World State (Results.t * bool) :=
  match sts with
  | [] => mret acc
  | state :: rest =>
      acc' ← SyncState_body customResource infoCatalog state acc;
      SyncState_loop customResource infoCatalog rest acc'
  end.

(** [func (smgr *stateManager) SyncState(customResource, infoCatalog) Results] *)
Definition stateManager_SyncState (smgr : stateManager)
    (customResource : CustomResource) (infoCatalog : InfoCatalog)
    : Eff World State Results.t :=
  let managerResult := Results.mk SyncStateNotReady [] in
  let statesReady := true in
  '(managerResult, statesReady) ←
    SyncState_loop customResource infoCatalog (states smgr) (managerResult, statesReady);
  if (statesReady : bool)
  then mret (Results.mk SyncStateReady (Results.StatesStatus managerResult))
  else mret managerResult.

(** *** What each state returned

    [sync_outcomes sts w] runs the [Sync] of each state of [sts] once, in
    the order of the list, each one on the world the previous one left, and
    collects what each returned. It is the meaning of "every state's Sync
    returned ..." in the statements below. *)
Fixpoint sync_outcomes (customResource : CustomResource) (infoCatalog : InfoCatalog)
    (sts : list State) (w : World) : list Result.t * World :=
  match sts with
  | [] => ([], w)
  | state :: rest =>
      let '((ss, err), w1) := Sync state customResource infoCatalog w in
      let '(rs, w2) := sync_outcomes customResource infoCatalog rest w1 in
      (Result.mk (Name state) ss err :: rs, w2)
  end.

Definition not_ready_or_error (r : Result.t) : bool :=
  bool_decide (Result.Status r = SyncStateNotReady)
  || bool_decide (Result.Status r = SyncStateError).

(** *** Watch sources *)

(** Go leaves the order of [for k, v := range m] over a map unspecified.
    [range m] is the order that is taken: some enumeration of the entries
    of [m]. *)
Variable range : gmap string source_Kind → list (string * source_Kind).
Hypothesis range_perm : ∀ m, range m ≡ₚ map_to_list m.

(** [if _, ok := kindMap[name]; !ok { kindMap[name] = kind }] *)
Definition add_kind (kindMap : gmap string source_Kind)
    (entry : string * source_Kind) : gmap string source_Kind :=
  let '(name, kind) := entry in
  match kindMap !! name with
  | Some _ => kindMap
  | None => <[name := kind]> kindMap
  end.

(** The first loop of [GetWatchSources] (manager.go, lines 58-67): the
    [kindMap] it builds. *)
Definition GetWatchSources_kindMap (sts : list State) : gmap string source_Kind :=
  fold_left
    (λ kindMap state, fold_left add_kind (range (GetWatchSources state)) kindMap)
    sts ∅.

(** [func (smgr *stateManager) GetWatchSources() []*source.Kind]: the
    returned [kinds], paired with the [kindNames] that the method builds
    alongside and logs. *)
Definition stateManager_GetWatchSources (smgr : stateManager)
    : list source_Kind * list string :=
  let kindMap := GetWatchSources_kindMap (states smgr) in
  fold_left
    (λ '(kinds, kindNames) '(kindName, kind),
       (kinds ++ [kind], kindNames ++ [kindName]))
    (range kindMap) ([], []).

(** The descriptor that the earliest state declaring [name] gives it. *)
Fixpoint first_declared (name : string) (sts : list State) : option source_Kind :=
  match sts with
  | [] => None
  | state :: rest =>
      match GetWatchSources state !! name with
      | Some kind => Some kind
      | None => first_declared name rest
      end
  end.

(** *** The loop, characterised *)

Lemma SyncState_loop_spec (cr : CustomResource) (ic : InfoCatalog)
    (sts : list State) (mr : Results.t) (ready : bool) (w : World) :
  SyncState_loop cr ic sts (mr, ready) w =
    (let '(rs, w') := sync_outcomes cr ic sts w in
     (Results.mk (Results.Status mr) (Results.StatesStatus mr ++ rs),
      ready && negb (existsb not_ready_or_error rs), w', sts)).
Proof.
  revert mr ready w.
  induction sts as [|state rest IH]; intros mr ready w; simpl.
  - unfold mret, Eff_ret, eff_ret. destruct mr as [st rs]; simpl.
    by rewrite app_nil_r, andb_true_r.
  - unfold mbind, Eff_bind, eff_bind, SyncState_body, invoke_Sync, call.
    unfold mbind, Eff_bind, eff_bind, mret, Eff_ret, eff_ret.
    destruct (Sync state cr ic w) as [[ss err] w1]; simpl.
    rewrite IH; simpl.
    destruct (sync_outcomes cr ic rest w1) as [rs w2]; simpl.
    rewrite <- app_assoc; simpl.
    unfold not_ready_or_error at 2; simpl.
    do 3 f_equal.
    destruct ss, ready; reflexivity.
Qed.

Lemma stateManager_SyncState_spec (smgr : stateManager)
    (cr : CustomResource) (ic : InfoCatalog) (w : World) :
  stateManager_SyncState smgr cr ic w =
    (let '(rs, w') := sync_outcomes cr ic (states smgr) w in
     (Results.mk (if existsb not_ready_or_error rs
                  then SyncStateNotReady else SyncStateReady) rs,
      w', states smgr)).
Proof.
  unfold stateManager_SyncState, mbind, Eff_bind, eff_bind.
  rewrite SyncState_loop_spec; simpl.
  destruct (sync_outcomes cr ic (states smgr) w) as [rs w']; simpl.
  destruct (existsb not_ready_or_error rs); simpl;
    unfold mret, Eff_ret, eff_ret; by rewrite app_nil_r.
Qed.

Lemma sync_outcomes_length (cr : CustomResource) (ic : InfoCatalog)
    (sts : list State) (w : World) :
  length (sync_outcomes cr ic sts w).1 = length sts.
Proof.
  revert w. induction sts as [|state rest IH]; intros w; simpl; [done|].
  destruct (Sync state cr ic w) as [[ss err] w1].
  specialize (IH w1). destruct (sync_outcomes cr ic rest w1); simpl in *.
  by rewrite IH.
Qed.

Lemma sync_outcomes_names (cr : CustomResource) (ic : InfoCatalog)
    (sts : list State) (w : World) :
  Result.StateName <$> (sync_outcomes cr ic sts w).1 = Name <$> sts.
Proof.
  revert w. induction sts as [|state rest IH]; intros w; simpl; [done|].
  destruct (Sync state cr ic w) as [[ss err] w1].
  specialize (IH w1). destruct (sync_outcomes cr ic rest w1) as [rs w2].
  csimpl in *. by rewrite IH.
Qed.

Lemma not_ready_or_error_iff (r : Result.t) :
  not_ready_or_error r = true ↔
  Result.Status r = SyncStateNotReady ∨ Result.Status r = SyncStateError.
Proof.
  unfold not_ready_or_error.
  rewrite orb_true_iff, !bool_decide_eq_true. done.
Qed.

Lemma existsb_not_ready_false (rs : list Result.t) :
  existsb not_ready_or_error rs = false ↔
  Forall (λ r, Result.Status r ≠ SyncStateNotReady ∧
               Result.Status r ≠ SyncStateError) rs.
Proof.
  induction rs as [|r rs IH]; simpl.
  - split; [constructor | done].
  - rewrite orb_false_iff, IH, Forall_cons.
    apply and_iff_compat_r.
    rewrite <- not_true_iff_false, not_ready_or_error_iff. tauto.
Qed.

Lemma existsb_not_ready_all_ready (rs : list Result.t) :
  Forall (λ r, Result.Status r = SyncStateReady) rs →
  existsb not_ready_or_error rs = false.
Proof.
  intros Hall. apply existsb_not_ready_false.
  eapply Forall_impl; [exact Hall|]. intros r ->. done.
Qed.

Lemma sync_outcomes_lookup (cr : CustomResource) (ic : InfoCatalog)
    (sts : list State) (w : World) (i : nat) (state : State) :
  sts !! i = Some state →
  (sync_outcomes cr ic sts w).1 !! i =
    Some (let r := Sync state cr ic (sync_outcomes cr ic (take i sts) w).2 in
          Result.mk (Name state) r.1.1 r.1.2).
Proof.
  revert w i. induction sts as [|s rest IH]; intros w i Hi; [done|].
  destruct i as [|i]; simpl in *.
  - injection Hi as ->.
    destruct (Sync state cr ic w) as [[ss err] w1]; simpl.
    by destruct (sync_outcomes cr ic rest w1).
  - destruct (Sync s cr ic w) as [[ss err] w1]; simpl.
    specialize (IH w1 i Hi).
    destruct (sync_outcomes cr ic rest w1) as [rs w2]; simpl in *.
    by destruct (sync_outcomes cr ic (take i rest) w1).
Qed.

(** *** Aggregation and isolation *)

(** C1, as the loop implements it. For every configured list of states, the
    [Results] that [SyncState] returns lists what each state's [Sync]
    returned, and its aggregate status is [SyncStateReady] if and only if no
    state's [Sync] returned [SyncStateNotReady] or [SyncStateError]: so it
    is when every state returned [SyncStateReady]; and if some state
    returned [SyncStateNotReady] or [SyncStateError], the aggregate status
    is [SyncStateNotReady]. *)
Theorem SyncState_aggregate_ready_iff_none_lowers (smgr : stateManager)
    (cr : CustomResource) (ic : InfoCatalog) (w : World) :
  let res := result_of (stateManager_SyncState smgr cr ic w) in
  let returned := (sync_outcomes cr ic (states smgr) w).1 in
  Results.StatesStatus res = returned ∧
  (Results.Status res = SyncStateReady ↔
     Forall (λ r, Result.Status r ≠ SyncStateNotReady ∧
                  Result.Status r ≠ SyncStateError) returned) ∧
  (Forall (λ r, Result.Status r = SyncStateReady) returned →
     Results.Status res = SyncStateReady) ∧
  ((∃ r, r ∈ returned ∧
         (Result.Status r = SyncStateNotReady ∨ Result.Status r = SyncStateError)) →
     Results.Status res = SyncStateNotReady).
Proof.
  simpl. rewrite stateManager_SyncState_spec.
  destruct (sync_outcomes cr ic (states smgr) w) as [rs w']; simpl.
  unfold result_of; simpl.
  split; [done|]. split; [|split].
  - rewrite <- existsb_not_ready_false.
    destruct (existsb not_ready_or_error rs); split; done.
  - intros Hall. by rewrite (existsb_not_ready_all_ready rs Hall).
  - intros (r & Hin & Hr).
    assert (existsb not_ready_or_error rs = true) as ->; [|done].
    apply existsb_exists. exists r. split.
    + by apply list_elem_of_In.
    + by apply not_ready_or_error_iff.
Qed.

(** C2. [SyncState] invokes [Sync] on each configured state exactly once, in
    the configured order (the calls made are the configured list itself, and
    each call acts on the cluster as the previous one left it).  Whatever the
    states return, an error included, the [Results] hold one [Result] for
    every configured state, in that order, with that state's name and the
    status and error its [Sync] returned; and if some state returned
    [SyncStateError] the global status is [SyncStateNotReady]. *)
Theorem SyncState_one_result_per_state_in_order (smgr : stateManager)
    (cr : CustomResource) (ic : InfoCatalog) (w : World) :
  let run := stateManager_SyncState smgr cr ic w in
  let res := result_of run in
  calls_of run = states smgr ∧
  (Results.StatesStatus res, world_of run) = sync_outcomes cr ic (states smgr) w ∧
  length (Results.StatesStatus res) = length (states smgr) ∧
  Result.StateName <$> Results.StatesStatus res = Name <$> states smgr ∧
  (∀ i state, states smgr !! i = Some state →
     Results.StatesStatus res !! i =
       Some (let r := Sync state cr ic
                        (sync_outcomes cr ic (take i (states smgr)) w).2 in
             Result.mk (Name state) r.1.1 r.1.2)) ∧
  (∀ r, r ∈ Results.StatesStatus res → Result.Status r = SyncStateError →
     Results.Status res = SyncStateNotReady).
Proof.
  simpl. rewrite stateManager_SyncState_spec.
  pose proof (sync_outcomes_length cr ic (states smgr) w) as Hlen.
  pose proof (sync_outcomes_names cr ic (states smgr) w) as Hnames.
  pose proof (sync_outcomes_lookup cr ic (states smgr) w) as Hlook.
  destruct (sync_outcomes cr ic (states smgr) w) as [rs w'] eqn:Hout.
  unfold result_of, world_of, calls_of; simpl in *.
  repeat split; try done.
  intros r Hin Hr.
  assert (existsb not_ready_or_error rs = true) as ->; [|done].
  apply existsb_exists. exists r. split.
  - by apply list_elem_of_In.
  - apply not_ready_or_error_iff. by right.
Qed.

(** *** Watch sources: union, first declaration wins *)

Lemma fold_add_kind_union (entries : list (string * source_Kind))
    (kindMap : gmap string source_Kind) :
  fold_left add_kind entries kindMap = kindMap ∪ list_to_map entries.
Proof.
  revert kindMap. induction entries as [|[name kind] entries IH]; intros kindMap.
  - simpl. by rewrite (right_id_L ∅ (∪)).
  - simpl. rewrite IH. destruct (kindMap !! name) as [k|] eqn:E.
    + apply map_eq. intros i. rewrite !lookup_union.
      destruct (decide (name = i)) as [<-|Hne].
      * rewrite E, lookup_insert_eq. by rewrite !union_Some_l.
      * by rewrite lookup_insert_ne.
    + rewrite <- insert_union_l. by rewrite insert_union_r.
Qed.

Lemma fold_add_kind_range (wr kindMap : gmap string source_Kind) :
  fold_left add_kind (range wr) kindMap = kindMap ∪ wr.
Proof using range_perm.
  rewrite fold_add_kind_union. f_equal.
  rewrite <- (list_to_map_to_list wr) at 2.
  apply list_to_map_proper; [|apply range_perm].
  rewrite (range_perm wr). apply NoDup_fst_map_to_list.
Qed.

Lemma kindMap_lookup_from (sts : list State) (acc : gmap string source_Kind)
    (name : string) :
  fold_left
    (λ kindMap state, fold_left add_kind (range (GetWatchSources state)) kindMap)
    sts acc !! name
  = match acc !! name with
    | Some kind => Some kind
    | None => first_declared name sts
    end.
Proof using range_perm.
  revert acc. induction sts as [|state rest IH]; intros acc; simpl.
  - by destruct (acc !! name).
  - rewrite IH, fold_add_kind_range, lookup_union.
    destruct (acc !! name), (GetWatchSources state !! name); done.
Qed.

Lemma kindMap_lookup (sts : list State) (name : string) :
  GetWatchSources_kindMap sts !! name = first_declared name sts.
Proof using range_perm.
  unfold GetWatchSources_kindMap. by rewrite kindMap_lookup_from, lookup_empty.
Qed.

Lemma collect_kinds_spec (entries : list (string * source_Kind))
    (kinds : list source_Kind) (kindNames : list string) :
  fold_left
    (λ '(kinds, kindNames) '(kindName, kind),
       (kinds ++ [kind], kindNames ++ [kindName]))
    entries (kinds, kindNames)
  = (kinds ++ entries.*2, kindNames ++ entries.*1).
Proof.
  revert kinds kindNames.
  induction entries as [|[n k] entries IH]; intros kinds kindNames; simpl.
  - by rewrite !app_nil_r.
  - rewrite IH. by rewrite <- !app_assoc.
Qed.

Lemma first_declared_Some (name : string) (kind : source_Kind) (sts : list State) :
  first_declared name sts = Some kind ↔
  ∃ pre state post,
    sts = pre ++ state :: post ∧
    (∀ s', s' ∈ pre → GetWatchSources s' !! name = None) ∧
    GetWatchSources state !! name = Some kind.
Proof.
  induction sts as [|s rest IH]; simpl.
  - split; [done|]. intros (pre & state & post & Heq & _). by destruct pre.
  - destruct (GetWatchSources s !! name) as [k|] eqn:E.
    + split.
      * intros [= ->]. exists [], s, rest. split; [done|]. split; [|done].
        intros s' Hin. by apply elem_of_nil in Hin.
      * intros (pre & state & post & Heq & Hpre & Hst).
        destruct pre as [|s0 pre]; simpl in Heq; injection Heq as <- ->.
        -- congruence.
        -- specialize (Hpre s (list_elem_of_here _ _)). congruence.
    + rewrite IH. split.
      * intros (pre & state & post & -> & Hpre & Hst).
        exists (s :: pre), state, post. split; [done|]. split; [|done].
        intros s' [->|Hin]%elem_of_cons; auto.
      * intros (pre & state & post & Heq & Hpre & Hst).
        destruct pre as [|s0 pre]; simpl in Heq; injection Heq as <- ->.
        -- congruence.
        -- exists pre, state, post. split; [done|]. split; [|done].
           intros s' Hin. apply Hpre. by apply list_elem_of_further.
Qed.

Lemma first_declared_is_Some (name : string) (sts : list State) :
  is_Some (first_declared name sts) ↔
  ∃ state, state ∈ sts ∧ is_Some (GetWatchSources state !! name).
Proof.
  induction sts as [|s rest IH]; simpl.
  - split; [by intros [? ?] | intros (? & Hin & _); by apply elem_of_nil in Hin].
  - destruct (GetWatchSources s !! name) as [k|] eqn:E.
    + split; [|by eauto]. intros _. exists s. split; [left|by rewrite E].
    + rewrite IH. split.
      * intros (state & Hin & Hs). exists state. split; [by right|done].
      * intros (state & [->|Hin]%elem_of_cons & Hs).
        -- rewrite E in Hs. by destruct Hs.
        -- by exists state.
Qed.

Lemma GetWatchSources_out (smgr : stateManager) :
  stateManager_GetWatchSources smgr =
    ((range (GetWatchSources_kindMap (states smgr))).*2,
     (range (GetWatchSources_kindMap (states smgr))).*1).
Proof. unfold stateManager_GetWatchSources. by rewrite collect_kinds_spec. Qed.

Lemma elem_of_range_kindMap (sts : list State) (name : string) (kind : source_Kind) :
  (name, kind) ∈ range (GetWatchSources_kindMap sts) ↔
  first_declared name sts = Some kind.
Proof using range_perm.
  by rewrite (range_perm _), elem_of_map_to_list, kindMap_lookup.
Qed.

(** C8. [GetWatchSources] returns the union of the watch kinds the configured
    states declare, de-duplicated by kind name: the returned descriptors
    stand one for one against the kind names, no kind name occurs twice, a
    kind name occurs exactly when some state declares it, every returned
    descriptor is one some state declared under that name, and for a name
    that several states declare, the descriptor returned is the one of the
    state earliest in the configured order. *)
Theorem GetWatchSources_dedup_first_declaration_wins (smgr : stateManager) :
  let out := stateManager_GetWatchSources smgr in
  let kinds := out.1 in
  let kindNames := out.2 in
  length kinds = length kindNames ∧
  NoDup kindNames ∧
  (∀ name, name ∈ kindNames ↔
     ∃ state, state ∈ states smgr ∧ is_Some (GetWatchSources state !! name)) ∧
  (∀ name kind, (name, kind) ∈ zip kindNames kinds →
     ∃ state, state ∈ states smgr ∧ GetWatchSources state !! name = Some kind) ∧
  (∀ pre state post name kind,
     states smgr = pre ++ state :: post →
     (∀ s', s' ∈ pre → GetWatchSources s' !! name = None) →
     GetWatchSources state !! name = Some kind →
     (name, kind) ∈ zip kindNames kinds ∧
     ∀ kind', (name, kind') ∈ zip kindNames kinds → kind' = kind).
Proof using range_perm.
  simpl. rewrite GetWatchSources_out; simpl.
  set (entries := range (GetWatchSources_kindMap (states smgr))).
  rewrite zip_fst_snd.
  split; [by rewrite !length_fmap|].
  split; [unfold entries; rewrite (range_perm _); apply NoDup_fst_map_to_list|].
  split; [|split].
  - intros name. rewrite <- first_declared_is_Some. split.
    + intros ([n k] & -> & Hin)%list_elem_of_fmap. simpl.
      apply elem_of_range_kindMap in Hin. by rewrite Hin.
    + intros [k Hk]. apply list_elem_of_fmap. exists (name, k).
      split; [done|]. by apply elem_of_range_kindMap.
  - intros name kind Hin. apply elem_of_range_kindMap in Hin.
    apply first_declared_Some in Hin as (pre & state & post & Heq & _ & Hst).
    exists state. split; [|done]. rewrite Heq. set_solver.
  - intros pre state post name kind Heq Hpre Hst.
    assert (first_declared name (states smgr) = Some kind) as Hfirst.
    { apply first_declared_Some. by exists pre, state, post. }
    split; [by apply elem_of_range_kindMap|].
    intros kind' Hin. apply elem_of_range_kindMap in Hin. congruence.
Qed.

(** *** Further properties of [SyncState] *)

Lemma sync_outcomes_app (cr : CustomResource) (ic : InfoCatalog)
    (sts1 sts2 : list State) (w : World) :
  sync_outcomes cr ic (sts1 ++ sts2) w =
    (let '(rs1, w1) := sync_outcomes cr ic sts1 w in
     let '(rs2, w2) := sync_outcomes cr ic sts2 w1 in
     (rs1 ++ rs2, w2)).
Proof.
  revert w. induction sts1 as [|state rest IH]; intros w; simpl.
  - by destruct (sync_outcomes cr ic sts2 w).
  - destruct (Sync state cr ic w) as [[ss err] w0]. rewrite IH.
    destruct (sync_outcomes cr ic rest w0) as [rs1 w1].
    by destruct (sync_outcomes cr ic sts2 w1).
Qed.

(** X1. Running the manager over the states [sts1 ++ sts2] is running it
    over [sts1] and then over [sts2] on the cluster the first run left: the
    per-state results and the calls are those of the two runs one after the
    other, and the global status is [SyncStateReady] exactly when it is so
    for both runs. *)
Theorem SyncState_app (sts1 sts2 : list State)
    (cr : CustomResource) (ic : InfoCatalog) (w : World) :
  let run1 := stateManager_SyncState (mk_stateManager sts1) cr ic w in
  let run2 := stateManager_SyncState (mk_stateManager sts2) cr ic (world_of run1) in
  stateManager_SyncState (mk_stateManager (sts1 ++ sts2)) cr ic w =
    (Results.mk
       (if bool_decide (Results.Status (result_of run1) = SyncStateReady)
           && bool_decide (Results.Status (result_of run2) = SyncStateReady)
        then SyncStateReady else SyncStateNotReady)
       (Results.StatesStatus (result_of run1) ++ Results.StatesStatus (result_of run2)),
     world_of run2,
     calls_of run1 ++ calls_of run2).
Proof.
  cbv zeta.
  rewrite (stateManager_SyncState_spec (mk_stateManager (sts1 ++ sts2))).
  rewrite (stateManager_SyncState_spec (mk_stateManager sts1)).
  cbn [states]. rewrite sync_outcomes_app.
  destruct (sync_outcomes cr ic sts1 w) as [rs1 w1].
  cbn [world_of result_of calls_of fst snd].
  rewrite (stateManager_SyncState_spec (mk_stateManager sts2)). cbn [states].
  destruct (sync_outcomes cr ic sts2 w1) as [rs2 w2].
  cbn [world_of result_of calls_of fst snd Results.Status Results.StatesStatus].
  rewrite existsb_app.
  by destruct (existsb not_ready_or_error rs1), (existsb not_ready_or_error rs2).
Qed.

(** X2. The global status is never [SyncStateError]: whatever the states
    return, it is [SyncStateReady] or [SyncStateNotReady], and the error of a
    state shows only in that state's [Result]. *)
Theorem SyncState_global_status_never_error (smgr : stateManager)
    (cr : CustomResource) (ic : InfoCatalog) (w : World) :
  Results.Status (result_of (stateManager_SyncState smgr cr ic w)) ≠ SyncStateError.
Proof.
  rewrite stateManager_SyncState_spec.
  destruct (sync_outcomes cr ic (states smgr) w) as [rs w']; simpl.
  unfold result_of; simpl. by destruct (existsb not_ready_or_error rs).
Qed.

(** *** Further properties of [GetWatchSources] *)

Lemma kindMap_from_union (sts : list State) (acc : gmap string source_Kind) :
  fold_left
    (λ kindMap state, fold_left add_kind (range (GetWatchSources state)) kindMap)
    sts acc
  = acc ∪ ⋃ (GetWatchSources <$> sts).
Proof using range_perm.
  revert acc. induction sts as [|state rest IH]; intros acc; simpl.
  - by rewrite (right_id_L ∅ (∪)).
  - rewrite IH, fold_add_kind_range. by rewrite (assoc_L (∪)).
Qed.

Lemma kindMap_union (sts : list State) :
  GetWatchSources_kindMap sts = ⋃ (GetWatchSources <$> sts).
Proof using range_perm.
  unfold GetWatchSources_kindMap. by rewrite kindMap_from_union, (left_id_L ∅ (∪)).
Qed.

Lemma first_declared_app (name : string) (sts more : list State) :
  first_declared name (sts ++ more) =
    match first_declared name sts with
    | Some kind => Some kind
    | None => first_declared name more
    end.
Proof.
  induction sts as [|state rest IH]; simpl; [by destruct (first_declared name more)|].
  by destruct (GetWatchSources state !! name).
Qed.

(** X3. The kinds that [GetWatchSources] returns, with their names, are the
    entries of the left-biased union of the maps the states declare, taken in
    the configured order; only their order in the output is left to the
    iteration order of Go maps. *)
Theorem GetWatchSources_is_union (smgr : stateManager) :
  zip (stateManager_GetWatchSources smgr).2 (stateManager_GetWatchSources smgr).1
    ≡ₚ map_to_list (⋃ (GetWatchSources <$> states smgr)).
Proof using range_perm.
  rewrite GetWatchSources_out; simpl. rewrite zip_fst_snd.
  by rewrite (range_perm _), kindMap_union.
Qed.

(** X4. A state added at the end of the configured order never takes a kind
    away nor changes the descriptor of a kind declared before it: every
    named kind returned for [sts] is returned for [sts ++ more]. *)
Theorem GetWatchSources_stable_under_append (sts more : list State)
    (name : string) (kind : source_Kind) :
  (name, kind) ∈ zip (stateManager_GetWatchSources (mk_stateManager sts)).2
                     (stateManager_GetWatchSources (mk_stateManager sts)).1 →
  (name, kind) ∈ zip (stateManager_GetWatchSources (mk_stateManager (sts ++ more))).2
                     (stateManager_GetWatchSources (mk_stateManager (sts ++ more))).1.
Proof using range_perm.
  rewrite !GetWatchSources_out; simpl. rewrite !zip_fst_snd.
  rewrite !elem_of_range_kindMap, first_declared_app. by intros ->.
Qed.

End Manager.

(** X5. The iteration order of Go maps decides the order of the returned
    kinds and nothing else: under any two iteration orders, the kinds
    returned are the same up to their order. *)
Theorem GetWatchSources_order_independent
    {CustomResource InfoCatalog World : Type}
    (range1 range2 : gmap string source_Kind → list (string * source_Kind))
    (smgr : stateManager (CustomResource := CustomResource)
                         (InfoCatalog := InfoCatalog) (World := World)) :
  (∀ m, range1 m ≡ₚ map_to_list m) →
  (∀ m, range2 m ≡ₚ map_to_list m) →
  (stateManager_GetWatchSources range1 smgr).1
    ≡ₚ (stateManager_GetWatchSources range2 smgr).1.
Proof.
  intros H1 H2. rewrite !GetWatchSources_out; simpl.
  rewrite (H1 _), (H2 _).
  by rewrite (kindMap_union range1 H1), (kindMap_union range2 H2).
Qed.

End Manager.

(** ** The CNI-plugins state *)

Module CNIPlugins.
Section CNIPlugins.

(** Types of the Kubernetes API and of the operator's API package, whose
    declarations are outside the sources at hand: they are left open. An
    [Unstructured] stands for the pointer to a rendered object; what it
    points to is part of the [World]. *)
Context {ImageSpec Toleration NodeAffinity Provider Unstructured World : Type}.

(** [mellanoxv1alpha1.NicClusterPolicy], as far as [Sync] reads it. *)
Record SecondaryNetworkSpec : Type := mk_SecondaryNetworkSpec {
  CniPlugins : option ImageSpec
}.

Record NicClusterPolicySpec : Type := mk_NicClusterPolicySpec {
  SecondaryNetwork : option SecondaryNetworkSpec;
  Tolerations : list Toleration;
  SpecNodeAffinity : option NodeAffinity
}.

Record NicClusterPolicy : Type := mk_NicClusterPolicy {
  Name : string;
  Namespace : string;
  Spec : NicClusterPolicySpec
}.

(** The [InfoCatalog] interface: [GetStaticConfigProvider()] may return nil. *)
Record InfoCatalog : Type := mk_InfoCatalog {
  GetStaticConfigProvider : option Provider
}.

Record cniRuntimeSpec : Type := mk_cniRuntimeSpec {
  runtimeSpec_Namespace : string;
  CniBinDirectory : string
}.

Record CNIPluginsManifestRenderData : Type := mk_CNIPluginsManifestRenderData {
  CrSpec : option ImageSpec;
  RenderTolerations : list Toleration;
  RenderNodeAffinity : option NodeAffinity;
  RuntimeSpec : cniRuntimeSpec
}.

(** [stateSkel] with what the state takes from its surroundings. The methods
    of the skeleton and the renderer behind the [render.Renderer] interface
    are not in the sources at hand: each is taken as a given operation on
    the cluster, and the properties below hold whatever these operations
    are. *)
Record stateSkel : Type := mk_stateSkel {
  name : string;
  description : string;
  (** [s.renderer.RenderObjects(&render.TemplatingData{Data: renderData})] *)
  RenderObjects :
    CNIPluginsManifestRenderData → World → (list Unstructured * option error) * World;
  (** [s.handleStateObjectsDeletion(ctx)] *)
  handleStateObjectsDeletion : World → (SyncState * option error) * World;
  (** [s.createOrUpdateObjs(ctx, setControllerReference, objs)] *)
  createOrUpdateObjs :
    (Unstructured → World → option error * World) →
    list Unstructured → World → option error * World;
  (** [s.handleStaleStateObjects(ctx, objs)] *)
  handleStaleStateObjects : list Unstructured → World → (bool * option error) * World;
  (** [s.getSyncState(ctx, objs)] *)
  getSyncState : list Unstructured → World → (SyncState * option error) * World;
  (** [controllerutil.SetControllerReference(cr, obj, s.scheme)] *)
  SetControllerReference : NicClusterPolicy → Unstructured → World → option error * World;
  (** [config.FromEnv().State.NetworkOperatorResourceNamespace] *)
  NetworkOperatorResourceNamespace : string;
  (** [utils.GetCniBinDirectory(staticConfig, nil)] *)
  GetCniBinDirectory : Provider → string
}.

(** The calls [Sync] makes on the skeleton and the renderer, each with what
    it was given and what it returned. *)
Inductive Call : Type :=
| CallHandleStateObjectsDeletion (ret : SyncState * option error)
| CallRenderObjects (data : CNIPluginsManifestRenderData)
    (ret : list Unstructured * option error)
| CallCreateOrUpdateObjs (objs : list Unstructured) (ret : option error)
| CallHandleStaleStateObjects (objs : list Unstructured) (ret : bool * option error)
| CallGetSyncState (objs : list Unstructured) (ret : SyncState * option error).

Definition is_render_call (c : Call) : bool :=
  match c with CallRenderObjects _ _ => true | _ => false end.
Definition is_create_or_update_call (c : Call) : bool :=
  match c with CallCreateOrUpdateObjs _ _ => true | _ => false end.
Definition is_status_call (c : Call) : bool :=
  match c with CallGetSyncState _ _ => true | _ => false end.

Definition stateCNIPluginsName : string := "state-container-networking-plugins".
Definition stateCNIPluginsDescription : string :=
  "Container Networking CNI Plugins deployed in the cluster".

(** [cr.Spec.SecondaryNetwork == nil || cr.Spec.SecondaryNetwork.CniPlugins == nil] *)
Definition cniPlugins_disabled (cr : NicClusterPolicy) : bool :=
  match SecondaryNetwork (Spec cr) with
  | None => true
  | Some secondaryNetwork =>
      match CniPlugins secondaryNetwork with
      | None => true
      | Some _ => false
      end
  end.

(** [func (s *stateCNIPlugins) getManifestObjects(cr, staticConfig, reqLogger)].
    [Sync] calls it only after it found [cr.Spec.SecondaryNetwork] non-nil,
    so the dereference of that pointer is safe there. *)
Definition stateCNIPlugins_getManifestObjects (s : stateSkel)
    (cr : NicClusterPolicy) (staticConfig : Provider)
    : Eff World Call (list Unstructured * option error) :=
  let renderData :=
    mk_CNIPluginsManifestRenderData
      (SecondaryNetwork (Spec cr) ≫= CniPlugins)
      (Tolerations (Spec cr))
      (SpecNodeAffinity (Spec cr))
      (mk_cniRuntimeSpec (NetworkOperatorResourceNamespace s)
                         (GetCniBinDirectory s staticConfig)) in
  '(objs, err) ← call (CallRenderObjects renderData) (RenderObjects s renderData);
  match err with
  | Some e => mret ([], Some (errors_Wrap e "failed to render objects"))
  | None => mret (objs, None)
  end.

(** The function literal handed to [createOrUpdateObjs] (lines 216-221). *)
Definition setControllerReference (s : stateSkel) (cr : NicClusterPolicy)
    (obj : Unstructured) : World → option error * World :=
  λ w, let '(err, w') := SetControllerReference s cr obj w in
       match err with
       | Some e =>
           (Some (errors_Wrap e "failed to set controller reference for object"), w')
       | None => (None, w')
       end.

(** [func (s *stateCNIPlugins) Sync(ctx, customResource, infoCatalog) (SyncState, error)].
    The custom resource is taken at the type the method asserts it to have. *)
Definition stateCNIPlugins_Sync (s : stateSkel) (cr : NicClusterPolicy)
    (infoCatalog : InfoCatalog) : Eff World Call (SyncState * option error) :=
  if cniPlugins_disabled cr then
    call CallHandleStateObjectsDeletion (handleStateObjectsDeletion s)
  else
  match GetStaticConfigProvider infoCatalog with
  | None =>
      mret (SyncStateError,
            Some (errors_New "unexpected state, catalog does not provide static info"))
  | Some staticInfo =>
  '(objs, err) ← stateCNIPlugins_getManifestObjects s cr staticInfo;
  match err with
  | Some e =>
      mret (SyncStateNotReady,
            Some (errors_Wrap e "failed to create k8s objects from manifest"))
  | None =>
  if (length objs =? 0)%nat then mret (SyncStateNotReady, None) else
  err ← call (CallCreateOrUpdateObjs objs)
             (createOrUpdateObjs s (setControllerReference s cr) objs);
  match err with
  | Some e => mret (SyncStateNotReady, Some (errors_Wrap e "failed to create/update objects"))
  | None =>
  '(waitForStaleObjectsRemoval, err) ←
    call (CallHandleStaleStateObjects objs) (handleStaleStateObjects s objs);
  match err with
  | Some e =>
      mret (SyncStateNotReady, Some (errors_Wrap e "failed to handle state stale objects"))
  | None =>
  if (waitForStaleObjectsRemoval : bool) then mret (SyncStateNotReady, None) else
  '(syncState, err) ← call (CallGetSyncState objs) (getSyncState s objs);
  match err with
  | Some e => mret (SyncStateNotReady, Some (errors_Wrap e "failed to get sync state"))
  | None => mret (syncState, None)
  end end end end end.

(** [func (s *stateCNIPlugins) GetWatchSources() map[string]*source.Kind] *)
Definition stateCNIPlugins_GetWatchSources : gmap string source_Kind :=
  {[ "DaemonSet" := mk_source_Kind "appsv1.DaemonSet" ]}.

(** The state as the manager sees it, through the [State] interface. *)
Definition stateCNIPlugins_State (s : stateSkel)
    : Manager.State (CustomResource := NicClusterPolicy)
                    (InfoCatalog := InfoCatalog) (World := World) :=
  Manager.mk_State (name s) (description s)
    (λ cr infoCatalog w,
       let run := stateCNIPlugins_Sync s cr infoCatalog w in
       (result_of run, world_of run))
    stateCNIPlugins_GetWatchSources.

(** The stage of [Sync] a call belongs to, and the error it returned. *)
Inductive Stage : Type :=
| StageDeletion | StageRender | StageCreateOrUpdate | StageStaleObjects | StageStatus.

Definition stage_of (c : Call) : Stage :=
  match c with
  | CallHandleStateObjectsDeletion _ => StageDeletion
  | CallRenderObjects _ _ => StageRender
  | CallCreateOrUpdateObjs _ _ => StageCreateOrUpdate
  | CallHandleStaleStateObjects _ _ => StageStaleObjects
  | CallGetSyncState _ _ => StageStatus
  end.

Definition call_error (c : Call) : option error :=
  match c with
  | CallHandleStateObjectsDeletion ret => ret.2
  | CallRenderObjects _ ret => ret.2
  | CallCreateOrUpdateObjs _ ret => ret
  | CallHandleStaleStateObjects _ ret => ret.2
  | CallGetSyncState _ ret => ret.2
  end.

(** *** Control flow of [Sync] *)

(** Unfolds one run of [Sync] and splits it along every branch the method
    takes, leaving the result, the world and the calls in the open. *)
Ltac sync_unfold :=
  unfold stateCNIPlugins_Sync, stateCNIPlugins_getManifestObjects, call,
    result_of, world_of, calls_of in *;
  unfold mbind, Eff_bind, eff_bind, mret, Eff_ret, eff_ret in *.

Ltac sync_step :=
  match goal with
  | H : context [match ?x with _ => _ end] |- _ =>
      lazymatch x with
      | context [match _ with _ => _ end] => fail
      | _ => destruct x eqn:?; simpl in *
      end
  | |- context [match ?x with _ => _ end] =>
      lazymatch x with
      | context [match _ with _ => _ end] => fail
      | _ => destruct x eqn:?; simpl in *
      end
  end.

Ltac sync_cases := sync_unfold; simpl in *; repeat sync_step.

Lemma cniPlugins_disabled_true (cr : NicClusterPolicy) :
  cniPlugins_disabled cr = true ↔
  SecondaryNetwork (Spec cr) = None ∨
  (∃ secondaryNetwork, SecondaryNetwork (Spec cr) = Some secondaryNetwork ∧
                       CniPlugins secondaryNetwork = None).
Proof.
  unfold cniPlugins_disabled.
  destruct (SecondaryNetwork (Spec cr)) as [sn|]; [|split; auto].
  destruct (CniPlugins sn) eqn:E.
  - split; [done|]. intros [?|(sn' & [= <-] & ?)]; congruence.
  - split; [|done]. intros _. right. eauto.
Qed.

(** C5. Whenever, in a run of [Sync], the handling of stale objects reports
    that deletions are still pending, [Sync] returns [SyncStateNotReady] for
    that cycle (with no error when the handling reported none) and makes no
    call to evaluate the status of the desired objects. *)
Theorem Sync_pending_deletions_not_ready (s : stateSkel) (cr : NicClusterPolicy)
    (infoCatalog : InfoCatalog) (w : World)
    (objs : list Unstructured) (err : option error) :
  CallHandleStaleStateObjects objs (true, err)
    ∈ calls_of (stateCNIPlugins_Sync s cr infoCatalog w) →
  (result_of (stateCNIPlugins_Sync s cr infoCatalog w)).1 = SyncStateNotReady ∧
  (err = None →
     result_of (stateCNIPlugins_Sync s cr infoCatalog w) = (SyncStateNotReady, None)) ∧
  Forall (λ c, is_status_call c = false)
         (calls_of (stateCNIPlugins_Sync s cr infoCatalog w)).
Proof.
  intros Hin. sync_cases; decompose_list_elem_of; simplify_eq;
    (split; [done|]); (split; [done|]); repeat constructor.
Qed.

(** C6. When the custom resource disables the sub-system
    ([Spec.SecondaryNetwork] is nil, or its [CniPlugins] is nil), [Sync]
    renders nothing and creates or updates nothing: the one call it makes is
    the deletion of the objects of the state, it leaves the cluster as that
    call left it, and it reports the status and error that call reported. *)
Theorem Sync_disabled_only_deletes (s : stateSkel) (cr : NicClusterPolicy)
    (infoCatalog : InfoCatalog) (w : World) :
  SecondaryNetwork (Spec cr) = None ∨
  (∃ secondaryNetwork, SecondaryNetwork (Spec cr) = Some secondaryNetwork ∧
                       CniPlugins secondaryNetwork = None) →
  let run := stateCNIPlugins_Sync s cr infoCatalog w in
  let deletion := handleStateObjectsDeletion s w in
  result_of run = deletion.1 ∧
  world_of run = deletion.2 ∧
  calls_of run = [CallHandleStateObjectsDeletion deletion.1] ∧
  Forall (λ c, is_render_call c = false ∧ is_create_or_update_call c = false)
         (calls_of run).
Proof.
  intros Hdis%cniPlugins_disabled_true. simpl.
  unfold stateCNIPlugins_Sync. rewrite Hdis. unfold call, result_of, world_of, calls_of.
  destruct (handleStateObjectsDeletion s w) as [ret w']; simpl.
  repeat split; repeat constructor.
Qed.

(** C7. Whenever, in a run of [Sync], the renderer returns an empty sequence
    of objects and no error, [Sync] returns [SyncStateNotReady] with no
    error, and does nothing further: the rendering is the only call made. *)
Theorem Sync_empty_desired_set_not_ready (s : stateSkel) (cr : NicClusterPolicy)
    (infoCatalog : InfoCatalog) (w : World) (data : CNIPluginsManifestRenderData) :
  CallRenderObjects data ([], None)
    ∈ calls_of (stateCNIPlugins_Sync s cr infoCatalog w) →
  result_of (stateCNIPlugins_Sync s cr infoCatalog w) = (SyncStateNotReady, None) ∧
  calls_of (stateCNIPlugins_Sync s cr infoCatalog w) = [CallRenderObjects data ([], None)].
Proof.
  intros Hin. sync_cases; decompose_list_elem_of; simplify_eq; done.
Qed.

(** C10. When the custom resource enables the sub-system and the catalog
    provides no static config provider, [Sync] returns [SyncStateError] with
    an error, makes no call at all (nothing is rendered, created, updated or
    deleted) and leaves the cluster as it was. *)
Theorem Sync_no_static_config_provider_error (s : stateSkel) (cr : NicClusterPolicy)
    (infoCatalog : InfoCatalog) (w : World)
    (secondaryNetwork : SecondaryNetworkSpec) (cniPlugins : ImageSpec) :
  SecondaryNetwork (Spec cr) = Some secondaryNetwork →
  CniPlugins secondaryNetwork = Some cniPlugins →
  GetStaticConfigProvider infoCatalog = None →
  let run := stateCNIPlugins_Sync s cr infoCatalog w in
  (∃ e, result_of run = (SyncStateError, Some e)) ∧
  calls_of run = [] ∧
  world_of run = w.
Proof.
  intros Hsn Hcni Hinfo. simpl.
  unfold stateCNIPlugins_Sync, cniPlugins_disabled. rewrite Hsn, Hcni, Hinfo.
  unfold mret, Eff_ret, eff_ret, result_of, world_of, calls_of; simpl.
  eauto.
Qed.

(** *** The order of the calls, and what comes back *)

(** X6. The calls of [Sync] follow one pipeline. Either the only call is the
    deletion of the state's objects, and then the sub-system is disabled; or
    the calls are, in this order and each at most once, a beginning of:
    render, create-or-update, stale objects, status. Create-or-update is
    attempted only on a non-empty sequence of objects that was rendered with
    no error, stale objects are handled only after create-or-update of those
    objects succeeded, and status is evaluated only after the handling of
    stale objects succeeded with no deletion pending. *)
Theorem Sync_call_pipeline (s : stateSkel) (cr : NicClusterPolicy)
    (infoCatalog : InfoCatalog) (w : World) :
  let calls := calls_of (stateCNIPlugins_Sync s cr infoCatalog w) in
  ((stage_of <$> calls = [StageDeletion] ∧ cniPlugins_disabled cr = true) ∨
   ((stage_of <$> calls)
      `prefix_of` [StageRender; StageCreateOrUpdate; StageStaleObjects; StageStatus] ∧
    cniPlugins_disabled cr = false)) ∧
  (∀ objs ret, CallCreateOrUpdateObjs objs ret ∈ calls →
     objs ≠ [] ∧ ∃ data, CallRenderObjects data (objs, None) ∈ calls) ∧
  (∀ objs ret, CallHandleStaleStateObjects objs ret ∈ calls →
     CallCreateOrUpdateObjs objs None ∈ calls) ∧
  (∀ objs ret, CallGetSyncState objs ret ∈ calls →
     CallHandleStaleStateObjects objs (false, None) ∈ calls).
Proof.
  cbv zeta. sync_cases;
    (split; [first [left; split; reflexivity
                   | right; split; [|reflexivity]; eexists; reflexivity]|]);
    repeat split; intros; decompose_list_elem_of; simplify_eq;
    try (eexists; repeat constructor); repeat constructor;
    by intros ->.
Qed.

(** X7. With the sub-system enabled, an error returned by any call (render,
    create-or-update, stale objects, status) ends the run at once: that call
    is the last one made, and [Sync] returns [SyncStateNotReady] with an
    error whose cause is the error of the call. *)
Theorem Sync_error_of_call_is_returned (s : stateSkel) (cr : NicClusterPolicy)
    (infoCatalog : InfoCatalog) (w : World) (c : Call) (e : error) :
  cniPlugins_disabled cr = false →
  c ∈ calls_of (stateCNIPlugins_Sync s cr infoCatalog w) →
  call_error c = Some e →
  last (calls_of (stateCNIPlugins_Sync s cr infoCatalog w)) = Some c ∧
  ∃ e', result_of (stateCNIPlugins_Sync s cr infoCatalog w) = (SyncStateNotReady, Some e') ∧
        errors_Cause e' = errors_Cause e.
Proof.
  intros Hen Hin He. sync_cases; decompose_list_elem_of; simplify_eq/=;
    (split; [reflexivity|]); eexists; (split; [reflexivity|]); reflexivity.
Qed.

(** X8. With the sub-system enabled, [Sync] returns a status other than
    [SyncStateNotReady] in two cases only: [SyncStateError] because the
    catalog has no static config provider, before any call; or the verdict
    of the status evaluation, which then was the last call, returned no
    error, and is passed on with no error. *)
Theorem Sync_status_is_verdict (s : stateSkel) (cr : NicClusterPolicy)
    (infoCatalog : InfoCatalog) (w : World) (status : SyncState) :
  cniPlugins_disabled cr = false →
  (result_of (stateCNIPlugins_Sync s cr infoCatalog w)).1 = status →
  status ≠ SyncStateNotReady →
  (status = SyncStateError ∧
   GetStaticConfigProvider infoCatalog = None ∧
   calls_of (stateCNIPlugins_Sync s cr infoCatalog w) = []) ∨
  (∃ objs,
     last (calls_of (stateCNIPlugins_Sync s cr infoCatalog w))
       = Some (CallGetSyncState objs (status, None)) ∧
     result_of (stateCNIPlugins_Sync s cr infoCatalog w) = (status, None)).
Proof.
  intros Hen Hst Hne. sync_cases; simplify_eq/=;
    first [ left; repeat split; reflexivity
          | right; eexists; split; reflexivity ].
Qed.

(** X9. Whenever [Sync] calls the renderer, the sub-system is enabled and
    the catalog has a static config provider, and the data handed over are
    those of the custom resource: its (non-nil) CNI-plugins image spec, its
    tolerations and node affinity, the operator's resource namespace and the
    CNI bin directory of that provider. *)
Theorem Sync_render_data (s : stateSkel) (cr : NicClusterPolicy)
    (infoCatalog : InfoCatalog) (w : World)
    (data : CNIPluginsManifestRenderData) (ret : list Unstructured * option error) :
  CallRenderObjects data ret ∈ calls_of (stateCNIPlugins_Sync s cr infoCatalog w) →
  ∃ secondaryNetwork cniPlugins staticInfo,
    SecondaryNetwork (Spec cr) = Some secondaryNetwork ∧
    CniPlugins secondaryNetwork = Some cniPlugins ∧
    GetStaticConfigProvider infoCatalog = Some staticInfo ∧
    data = mk_CNIPluginsManifestRenderData
             (Some cniPlugins) (Tolerations (Spec cr)) (SpecNodeAffinity (Spec cr))
             (mk_cniRuntimeSpec (NetworkOperatorResourceNamespace s)
                                (GetCniBinDirectory s staticInfo)) ∧
    ret = (RenderObjects s data w).1.
Proof.
  intros Hin.
  assert (cniPlugins_disabled cr = false) as Hen.
  { destruct (cniPlugins_disabled cr) eqn:E; [|done].
    unfold stateCNIPlugins_Sync, call, calls_of in Hin. rewrite E in Hin.
    destruct (handleStateObjectsDeletion s w); simpl in Hin.
    decompose_list_elem_of; simplify_eq. }
  unfold cniPlugins_disabled in Hen.
  destruct (SecondaryNetwork (Spec cr)) as [sn|] eqn:Hsn; [|done].
  destruct (CniPlugins sn) as [cni|] eqn:Hcni; [|done].
  assert (SecondaryNetwork (Spec cr) ≫= CniPlugins = Some cni) as Hbind
    by (by rewrite Hsn).
  exists sn, cni.
  unfold stateCNIPlugins_Sync, cniPlugins_disabled in Hin; rewrite Hsn, Hcni in Hin.
  destruct (GetStaticConfigProvider infoCatalog) as [p|] eqn:Hp;
    [|by apply elem_of_nil in Hin].
  exists p. do 3 (split; [done|]).
  unfold stateCNIPlugins_getManifestObjects in Hin. rewrite Hsn in Hin. simpl in Hin.
  sync_cases; decompose_list_elem_of; simplify_eq/=; rewrite Hcni in *;
    match goal with H : RenderObjects _ _ _ = _ |- _ => rewrite H end; done.
Qed.

End CNIPlugins.
End CNIPlugins.

(** ** CNI-plugins states under the manager *)

Module Engine.
Section Engine.
Context {ImageSpec Toleration NodeAffinity Provider Unstructured World : Type}.

Abbreviation stateSkel :=
  (CNIPlugins.stateSkel (ImageSpec := ImageSpec) (Toleration := Toleration)
     (NodeAffinity := NodeAffinity) (Provider := Provider)
     (Unstructured := Unstructured) (World := World)).

(** A manager whose states are CNI-plugins states, one for each skeleton. *)
Definition cniPlugins_manager (skels : list stateSkel) :=
  Manager.mk_stateManager (CNIPlugins.stateCNIPlugins_State <$> skels).

Lemma cniPlugins_union (skels : list stateSkel) :
  skels ≠ [] →
  ⋃ (Manager.GetWatchSources <$> (CNIPlugins.stateCNIPlugins_State <$> skels))
    = CNIPlugins.stateCNIPlugins_GetWatchSources.
Proof.
  induction skels as [|s rest IH]; [done|]. intros _. csimpl.
  destruct rest as [|s' rest'].
  - simpl. by rewrite (right_id_L ∅ (∪)).
  - rewrite IH; [|done]. apply map_eq. intros i. rewrite lookup_union.
    by destruct (CNIPlugins.stateCNIPlugins_GetWatchSources !! i).
Qed.

(** X10. However many CNI-plugins states a manager holds (at least one),
    and whatever the iteration order of Go maps, its watch sources are the
    single [DaemonSet] kind: the declarations of the states collapse into
    one. *)
Theorem cniPlugins_manager_watches_DaemonSet
    (range : gmap string source_Kind → list (string * source_Kind))
    (skels : list stateSkel) :
  (∀ m, range m ≡ₚ map_to_list m) →
  skels ≠ [] →
  Manager.stateManager_GetWatchSources range (cniPlugins_manager skels) =
    ([mk_source_Kind "appsv1.DaemonSet"], ["DaemonSet"]).
Proof.
  intros Hrange Hne.
  rewrite Manager.GetWatchSources_out. unfold cniPlugins_manager; simpl.
  rewrite (Manager.kindMap_union range Hrange), (cniPlugins_union skels Hne).
  pose proof (Hrange CNIPlugins.stateCNIPlugins_GetWatchSources) as Hperm.
  unfold CNIPlugins.stateCNIPlugins_GetWatchSources in *.
  rewrite map_to_list_singleton in Hperm.
  apply Permutation_singleton_r in Hperm. by rewrite Hperm.
Qed.

Lemma sync_outcomes_no_provider (skels : list stateSkel)
    (cr : CNIPlugins.NicClusterPolicy) (infoCatalog : CNIPlugins.InfoCatalog)
    (w : World) :
  CNIPlugins.cniPlugins_disabled cr = false →
  CNIPlugins.GetStaticConfigProvider infoCatalog = None →
  Manager.sync_outcomes cr infoCatalog (CNIPlugins.stateCNIPlugins_State <$> skels) w =
    ((λ s, Result.mk (CNIPlugins.name s) SyncStateError
             (Some (errors_New "unexpected state, catalog does not provide static info")))
       <$> skels, w).
Proof.
  intros Hen Hcat. induction skels as [|s rest IH]; [done|].
  rewrite !fmap_cons. cbn [Manager.sync_outcomes].
  cbn [CNIPlugins.stateCNIPlugins_State Manager.Sync Manager.Name].
  unfold CNIPlugins.stateCNIPlugins_Sync at 1 2. rewrite Hen, Hcat.
  unfold result_of, world_of; simpl. by rewrite IH.
Qed.

(** X11. When the custom resource enables the sub-system and the catalog has
    no static config provider, a manager of CNI-plugins states leaves the
    cluster as it was, reports [SyncStateError] with the catalog error for
    every state, under its name and in order, and a global status of
    [SyncStateNotReady] (of [SyncStateReady] if it holds no state at all). *)
Theorem cniPlugins_manager_no_provider (skels : list stateSkel)
    (cr : CNIPlugins.NicClusterPolicy) (infoCatalog : CNIPlugins.InfoCatalog)
    (w : World) :
  CNIPlugins.cniPlugins_disabled cr = false →
  CNIPlugins.GetStaticConfigProvider infoCatalog = None →
  let run := Manager.stateManager_SyncState (cniPlugins_manager skels) cr infoCatalog w in
  world_of run = w ∧
  Results.StatesStatus (result_of run) =
    (λ s, Result.mk (CNIPlugins.name s) SyncStateError
            (Some (errors_New "unexpected state, catalog does not provide static info")))
      <$> skels ∧
  Results.Status (result_of run) =
    (if bool_decide (skels = []) then SyncStateReady else SyncStateNotReady).
Proof.
  intros Hen Hcat. cbv zeta.
  rewrite Manager.stateManager_SyncState_spec. unfold cniPlugins_manager; simpl.
  rewrite (sync_outcomes_no_provider skels cr infoCatalog w Hen Hcat).
  unfold world_of, result_of; simpl. split; [done|]. split; [done|].
  by destruct skels.
Qed.

End Engine.
End Engine.

(** ** The renderer *)

Module Render.
Section Render.

(** The binding context and the rendered objects are opaque to the renderer. *)
Context {TemplatingData Unstructured : Type}.

(** What the renderer stands on: the template documents by path ([None]: no
    such document), the template engine ([None]: the directives refer to
    fields the binding context lacks, or a coercion fails), and the decoders
    of the two serialization dialects ([None]: the text is not a well-formed
    structured document). *)
Variable readFile : string → option string.
Variable evalTemplate : string → TemplatingData → option string.
Variable decodeYAML : string → option Unstructured.
Variable decodeJSON : string → option Unstructured.

(** Modelled from the spec: the error type of the renderer is not in the
    sources at hand. The taxonomy is that of sections 4.1 and 7 of the
    specification; each error names the document it arose on. *)
Inductive RenderError : Type :=
| NotFound (path : string)
| TemplateEvaluation (path : string)
| ParseFailure (path : string).

(** [strings.HasSuffix] *)
Definition hasSuffix (s suffix : string) : bool :=
  String.prefix (String.rev suffix) (String.rev s).

(** Modelled from the spec: the value of [render.ManifestFileSuffix] is not in
    the sources at hand; section 6 of the specification gives the supported
    suffixes. *)
Definition ManifestFileSuffix : list string := [".yaml"; ".yml"; ".json"].

Definition supported_suffix (path : string) : bool :=
  existsb (hasSuffix path) ManifestFileSuffix.

(** Modelled from the spec: the renderer's code is not in the sources at hand
    (only its test is). "Selection of parser is by file suffix, not content
    sniffing": [.yaml] and [.yml] take the YAML decoder, [.json] the JSON
    decoder. The specification names no decoder for any other suffix; none is
    selected and the document does not parse. *)
Definition decode (path rendered : string) : option Unstructured :=
  if hasSuffix path ".yaml" || hasSuffix path ".yml" then decodeYAML rendered
  else if hasSuffix path ".json" then decodeJSON rendered
  else None.

(** Modelled from the spec: the renderer's code is not in the sources at hand.
    One template document gives one rendered object: the document is read
    ("a named document that does not exist" is [NotFound]), evaluated against
    the binding context ([TemplateEvaluation]) and, once rendered, decoded
    ([ParseFailure]). *)
Definition renderFile (path : string) (data : TemplatingData)
    : Unstructured + RenderError :=
  match readFile path with
  | None => inr (NotFound path)
  | Some text =>
      match evalTemplate text data with
      | None => inr (TemplateEvaluation path)
      | Some rendered =>
          match decode path rendered with
          | None => inr (ParseFailure path)
          | Some obj => inl obj
          end
      end
  end.

(** Modelled from the spec: [render.NewRenderer(files)], as the test calls it;
    the renderer keeps the "immutable, pre-resolved list of template document
    paths". *)
Record Renderer : Type := NewRenderer { files : list string }.

(** Modelled from the spec: the renderer's code is not in the sources at hand.
    The batch is all or nothing: the first document that fails ends the call
    with its error and no objects, whatever was rendered before it. *)
Fixpoint renderAll (paths : list string) (data : TemplatingData)
    (objs : list Unstructured) : list Unstructured * option RenderError :=
  match paths with
  | [] => (objs, None)
  | path :: rest =>
      match renderFile path data with
      | inr err => ([], Some err)
      | inl obj => renderAll rest data (objs ++ [obj])
      end
  end.

(** Modelled from the spec: the renderer's code is not in the sources at hand.
    "Documents are processed in ascending lexicographic order of their path,
    and the output sequence preserves that order": the paths are put in
    ascending order (bytewise, [String.le]) and rendered one after the other. *)
Definition RenderObjects (r : Renderer) (data : TemplatingData)
    : list Unstructured * option RenderError :=
  renderAll (merge_sort String.le (files r)) data [].

(** *** The batch *)

Lemma renderAll_ok (paths : list string) (data : TemplatingData)
    (acc objs : list Unstructured) :
  Forall2 (λ path obj, renderFile path data = inl obj) paths objs →
  renderAll paths data acc = (acc ++ objs, None).
Proof.
  intros Hall. revert acc.
  induction Hall as [|path obj paths objs Hobj _ IH]; intros acc; simpl.
  - by rewrite app_nil_r.
  - rewrite Hobj, IH. by rewrite <- app_assoc.
Qed.

Lemma renderAll_fail (paths : list string) (data : TemplatingData)
    (acc : list Unstructured) (path : string) (err : RenderError) :
  path ∈ paths → renderFile path data = inr err →
  ∃ err', renderAll paths data acc = ([], Some err').
Proof.
  intros Hin Herr. revert acc.
  induction paths as [|p rest IH]; intros acc; [by apply elem_of_nil in Hin|].
  simpl. destruct (renderFile p data) as [obj|e] eqn:E; [|by eauto].
  apply elem_of_cons in Hin as [->|Hin]; [congruence|]. by apply IH.
Qed.

Lemma all_render (paths : list string) (data : TemplatingData) :
  (∀ path, path ∈ paths → ∃ obj, renderFile path data = inl obj) →
  ∃ objs, Forall2 (λ path obj, renderFile path data = inl obj) paths objs.
Proof.
  induction paths as [|p rest IH]; intros Hall.
  - exists []. constructor.
  - destruct (Hall p) as [obj Hobj]; [left|].
    destruct IH as [objs Hobjs]; [intros q Hq; apply Hall; by right|].
    exists (obj :: objs). by constructor.
Qed.

Lemma merge_sort_sorted (paths : list string) :
  Sorted String.le paths → merge_sort String.le paths = paths.
Proof.
  intros Hsorted. apply (Sorted_unique String.le); [|done|].
  - apply (Sorted_merge_sort String.le).
  - apply merge_sort_Permutation.
Qed.

Lemma renderFile_inr (path : string) (data : TemplatingData) :
  readFile path = None ∨
  (∃ text, readFile path = Some text ∧ evalTemplate text data = None) ∨
  (∃ text rendered, readFile path = Some text ∧
     evalTemplate text data = Some rendered ∧ decode path rendered = None) →
  ∃ err, renderFile path data = inr err.
Proof.
  unfold renderFile.
  intros [-> | [(text & -> & ->) | (text & rendered & -> & -> & ->)]]; eauto.
Qed.

Lemma RenderObjects_in_ascending_order (paths : list string)
    (data : TemplatingData) :
  (∀ path, path ∈ paths → ∃ obj, renderFile path data = inl obj) →
  ∃ objs,
    RenderObjects (NewRenderer paths) data = (objs, None) ∧
    Forall2 (λ path obj, renderFile path data = inl obj)
            (merge_sort String.le paths) objs.
Proof.
  intros Hall.
  destruct (all_render (merge_sort String.le paths) data) as [objs Hobjs].
  { intros path Hin. apply Hall. by rewrite <- (merge_sort_Permutation String.le). }
  exists objs. split; [|done].
  unfold RenderObjects; simpl. by rewrite (renderAll_ok _ _ [] objs Hobjs).
Qed.

(** C3. For a Template Set of N documents whose paths are in ascending
    lexicographic order and carry supported suffixes, in any mix, and each of
    which renders, [RenderObjects] returns no error and exactly N objects,
    the i-th object being the rendering of the i-th path: the objects come in
    that same ascending order of paths. *)
Theorem RenderObjects_ascending_path_order (paths : list string)
    (data : TemplatingData) :
  Sorted String.le paths →
  Forall (λ path, supported_suffix path = true) paths →
  (∀ path, path ∈ paths → ∃ obj, renderFile path data = inl obj) →
  ∃ objs,
    RenderObjects (NewRenderer paths) data = (objs, None) ∧
    length objs = length paths ∧
    Forall2 (λ path obj, renderFile path data = inl obj) paths objs.
Proof.
  intros Hsorted _ Hall.
  destruct (RenderObjects_in_ascending_order paths data Hall) as (objs & Hrun & Hobjs).
  rewrite (merge_sort_sorted _ Hsorted) in Hobjs.
  exists objs. split; [done|]. split; [|done].
  symmetry. by eapply Forall2_length.
Qed.

(** C4. Whenever some document of the input list is missing, or refers to
    fields the binding context lacks (its evaluation fails), or does not
    parse as a structured document once rendered, [RenderObjects] returns an
    error together with the empty sequence of objects, wherever that document
    stands in the list and whatever was rendered before it. *)
Theorem RenderObjects_all_or_nothing (paths : list string)
    (data : TemplatingData) (path : string) :
  path ∈ paths →
  readFile path = None ∨
  (∃ text, readFile path = Some text ∧ evalTemplate text data = None) ∨
  (∃ text rendered, readFile path = Some text ∧
     evalTemplate text data = Some rendered ∧ decode path rendered = None) →
  ∃ err, RenderObjects (NewRenderer paths) data = ([], Some err).
Proof.
  intros Hin [err Herr]%renderFile_inr.
  unfold RenderObjects; simpl.
  apply (renderAll_fail _ data [] path err); [|done].
  by rewrite merge_sort_Permutation.
Qed.

(** C9. For the empty list of template documents, [RenderObjects] returns
    the empty sequence of objects and no error. *)
Theorem RenderObjects_no_documents (data : TemplatingData) :
  RenderObjects (NewRenderer []) data = ([], None).
Proof. reflexivity. Qed.

End Render.
End Render.

(** ** Regular expressions ([regexp]) *)

(** The admission webhook validates strings with [regexp.MustCompile(p)] and
    [MatchString]. Every pattern it uses is anchored at both ends,
    so [MatchString] holds exactly of the strings of the pattern's language;
    the patterns use character classes of ASCII characters, sequence,
    alternative and repetition only. A pattern is taken as its syntax tree,
    and matched by derivatives. *)

Module Regexp.

Inductive regex : Type :=
| Void
| Eps
| Class (p : ascii → bool)
| Seq (r1 r2 : regex)
| Alt (r1 r2 : regex)
| Star (r : regex).

(** [r+], [r?], [r{n}], [r{0,n}] and [r{n,}] *)
Definition Plus (r : regex) : regex := Seq r (Star r).
Definition Opt (r : regex) : regex := Alt r Eps.
Fixpoint Rep (n : nat) (r : regex) : regex :=
  match n with
  | 0 => Eps
  | S n => Seq r (Rep n r)
  end.
Fixpoint UpTo (n : nat) (r : regex) : regex :=
  match n with
  | 0 => Eps
  | S n => Opt (Seq r (UpTo n r))
  end.
Definition AtLeast (n : nat) (r : regex) : regex := Seq (Rep n r) (Star r).

(** Character classes: [[lo-hi]], a single character, and unions. *)
Definition in_range (lo hi c : ascii) : bool :=
  (nat_of_ascii lo <=? nat_of_ascii c)%nat && (nat_of_ascii c <=? nat_of_ascii hi)%nat.
Definition is_char (a c : ascii) : bool := Ascii.eqb a c.
Definition is_digit (c : ascii) : bool := in_range "0" "9" c.
Definition is_alpha (c : ascii) : bool := in_range "a" "z" c || in_range "A" "Z" c.
Definition is_alnum (c : ascii) : bool := is_alpha c || is_digit c.
Definition is_hex (c : ascii) : bool :=
  in_range "0" "9" c || in_range "A" "F" c || in_range "a" "f" c.

Fixpoint nullable (r : regex) : bool :=
  match r with
  | Void => false
  | Eps => true
  | Class _ => false
  | Seq r1 r2 => nullable r1 && nullable r2
  | Alt r1 r2 => nullable r1 || nullable r2
  | Star _ => true
  end.

Fixpoint deriv (c : ascii) (r : regex) : regex :=
  match r with
  | Void => Void
  | Eps => Void
  | Class p => if p c then Eps else Void
  | Seq r1 r2 =>
      if nullable r1 then Alt (Seq (deriv c r1) r2) (deriv c r2)
      else Seq (deriv c r1) r2
  | Alt r1 r2 => Alt (deriv c r1) (deriv c r2)
  | Star r1 => Seq (deriv c r1) (Star r1)
  end.

Fixpoint matches (r : regex) (s : list ascii) : bool :=
  match s with
  | [] => nullable r
  | c :: s => matches (deriv c r) s
  end.

(** [regexp.MustCompile("^r$").MatchString(s)] *)
Definition MatchString (r : regex) (s : string) : bool :=
  matches r (String.list_ascii_of_string s).

(** The language of a pattern. *)
Fixpoint lang (r : regex) (s : list ascii) : Prop :=
  match r with
  | Void => False
  | Eps => s = []
  | Class p => ∃ c, s = [c] ∧ p c = true
  | Seq r1 r2 => ∃ s1 s2, s = s1 ++ s2 ∧ lang r1 s1 ∧ lang r2 s2
  | Alt r1 r2 => lang r1 s ∨ lang r2 s
  | Star r1 => ∃ ss, s = concat ss ∧ Forall (lang r1) ss
  end.

(** Every character class of the pattern lies within [P]. *)
Fixpoint chars_in (P : ascii → Prop) (r : regex) : Prop :=
  match r with
  | Void | Eps => True
  | Class p => ∀ c, p c = true → P c
  | Seq r1 r2 | Alt r1 r2 => chars_in P r1 ∧ chars_in P r2
  | Star r1 => chars_in P r1
  end.

Lemma nullable_spec (r : regex) : nullable r = true ↔ lang r [].
Proof.
  induction r as [| |p|r1 IH1 r2 IH2|r1 IH1 r2 IH2|r1 IH1]; simpl.
  - done.
  - done.
  - split; [done|]. by intros (c & ? & _).
  - rewrite andb_true_iff, IH1, IH2. split.
    + intros [H1 H2]. by exists [], [].
    + intros (s1 & s2 & Heq & H1 & H2). symmetry in Heq.
      apply app_eq_nil in Heq as [-> ->]. done.
  - by rewrite orb_true_iff, IH1, IH2.
  - split; [|done]. intros _. exists []. split; [done|constructor].
Qed.

Lemma lang_star_cons (r : regex) (c : ascii) (s : list ascii) :
  lang (Star r) (c :: s) ↔
  ∃ s1 s2, s = s1 ++ s2 ∧ lang r (c :: s1) ∧ lang (Star r) s2.
Proof.
  split.
  - intros (ss & Heq & Hall). revert Heq.
    induction Hall as [|p ss Hp Hall IH]; intros Heq; [done|].
    destruct p as [|c' p]; simpl in Heq; [by apply IH|].
    injection Heq as -> ->. exists p, (concat ss). split; [done|]. split; [done|].
    by exists ss.
  - intros (s1 & s2 & -> & H1 & ss & -> & Hall).
    exists ((c :: s1) :: ss). split; [done|]. by constructor.
Qed.

Lemma deriv_spec (r : regex) (c : ascii) (s : list ascii) :
  lang (deriv c r) s ↔ lang r (c :: s).
Proof.
  revert s. induction r as [| |p|r1 IH1 r2 IH2|r1 IH1 r2 IH2|r1 IH1]; intros s.
  - done.
  - done.
  - simpl. destruct (p c) eqn:E; simpl.
    + split; [intros ->; eauto|]. by intros (c' & [= -> ->] & _).
    + split; [done|]. intros (c' & [= -> ->] & ?). congruence.
  - assert (lang (Seq (deriv c r1) r2) s ↔
            ∃ s1 s2, s = s1 ++ s2 ∧ lang r1 (c :: s1) ∧ lang r2 s2) as Hseq.
    { simpl. split; intros (s1 & s2 & -> & H1 & H2); exists s1, s2;
        (split; [done|]); (split; [|done]); by apply IH1. }
    change (deriv c (Seq r1 r2)) with
      (if nullable r1 then Alt (Seq (deriv c r1) r2) (deriv c r2)
       else Seq (deriv c r1) r2).
    destruct (nullable r1) eqn:Hn.
    + change (lang (Alt (Seq (deriv c r1) r2) (deriv c r2)) s) with
        (lang (Seq (deriv c r1) r2) s ∨ lang (deriv c r2) s).
      rewrite Hseq, IH2. split.
      * intros [(s1 & s2 & -> & H1 & H2)|H2].
        -- exists (c :: s1), s2. done.
        -- exists [], (c :: s). split; [done|]. split; [|done].
           by apply nullable_spec.
      * intros (s1 & s2 & Heq & H1 & H2). destruct s1 as [|c' s1]; simpl in Heq.
        -- right. by subst.
        -- injection Heq as <- ->. left. by exists s1, s2.
    + rewrite Hseq. split.
      * intros (s1 & s2 & -> & H1 & H2). by exists (c :: s1), s2.
      * intros (s1 & s2 & Heq & H1 & H2). destruct s1 as [|c' s1]; simpl in Heq.
        -- apply nullable_spec in H1. congruence.
        -- injection Heq as <- ->. by exists s1, s2.
  - simpl. by rewrite IH1, IH2.
  - rewrite lang_star_cons. simpl. split.
    + intros (s1 & s2 & -> & H1 & H2). exists s1, s2. split; [done|].
      split; [by apply IH1|done].
    + intros (s1 & s2 & -> & H1 & H2). exists s1, s2. split; [done|].
      split; [by apply IH1|done].
Qed.

(** The matcher decides the language. *)
Lemma matches_spec (r : regex) (s : list ascii) : matches r s = true ↔ lang r s.
Proof.
  revert r. induction s as [|c s IH]; intros r; simpl.
  - apply nullable_spec.
  - by rewrite IH, deriv_spec.
Qed.

Lemma MatchString_spec (r : regex) (s : string) :
  MatchString r s = true ↔ lang r (String.list_ascii_of_string s).
Proof. apply matches_spec. Qed.

(** A matched string is made of characters of the pattern's classes. *)
Lemma lang_chars_in (P : ascii → Prop) (r : regex) (s : list ascii) :
  chars_in P r → lang r s → Forall P s.
Proof.
  revert s. induction r as [| |p|r1 IH1 r2 IH2|r1 IH1 r2 IH2|r1 IH1]; intros s; simpl.
  - done.
  - by intros _ ->.
  - intros Hp (c & -> & Hc). constructor; [by apply Hp|constructor].
  - intros [H1 H2] (s1 & s2 & -> & Hs1 & Hs2). apply Forall_app. split; eauto.
  - intros [H1 H2] [Hs|Hs]; eauto.
  - intros H1 (ss & -> & Hall). apply Forall_concat.
    eapply Forall_impl; [exact Hall|]. simpl. eauto.
Qed.

Lemma lang_Plus (r : regex) (s : list ascii) :
  lang (Plus r) s ↔ ∃ s1 s2, s = s1 ++ s2 ∧ lang r s1 ∧ lang (Star r) s2.
Proof. reflexivity. Qed.

Lemma lang_Star_Class (p : ascii → bool) (s : list ascii) :
  lang (Star (Class p)) s ↔ Forall (λ c, p c = true) s.
Proof.
  split.
  - apply (lang_chars_in (λ c, p c = true) (Star (Class p))). simpl. auto.
  - intros Hall. exists ((λ c, [c]) <$> s). split.
    + induction s as [|c s IH]; [done|]. csimpl. f_equal. apply IH.
      by inversion Hall.
    + apply Forall_fmap. eapply Forall_impl; [exact Hall|]. simpl. eauto.
Qed.

Lemma lang_Plus_Class (p : ascii → bool) (s : list ascii) :
  lang (Plus (Class p)) s ↔ s ≠ [] ∧ Forall (λ c, p c = true) s.
Proof.
  rewrite lang_Plus. split.
  - intros (s1 & s2 & -> & (c & -> & Hc) & Hs2%lang_Star_Class).
    split; [done|]. by constructor.
  - intros [Hne Hall]. destruct s as [|c s]; [done|].
    inversion Hall as [|? ? Hc Hs]; subst.
    exists [c], s. split; [done|]. split; [by exists c|by apply lang_Star_Class].
Qed.

End Regexp.

(** ** The admission webhook ([api/v1alpha1/validator]) *)

Module Validator.
Import Regexp.

(** *** Field errors ([k8s.io/apimachinery/pkg/util/validation/field]) *)

(** A [field.Path] is the list of its names, root first. *)
Definition Path : Type := list string.
Definition NewPath (name : string) : Path := [name].
Definition Child (p : Path) (name : string) : Path := p ++ [name].
(** The method [String] of [Path]: the names joined by dots. *)
Definition Path_String (p : Path) : string := String.concat "." p.

Inductive ErrorType : Type := ErrorTypeInvalid | ErrorTypeForbidden.

(** The offending value of an error: a string, a pointer to one, a
    quantity, or an empty list of resource requirements. *)
Inductive BadValue : Type :=
| BadString (s : string)
| BadStringPtr (s : option string)
| BadQuantity (q : Z)
| BadEmptyList.

Record Error : Type := mk_Error {
  ErrType : ErrorType;
  Field : Path;
  Bad : BadValue;
  Detail : string
}.

Definition ErrorList : Type := list Error.

Definition Invalid (p : Path) (value : BadValue) (detail : string) : Error :=
  mk_Error ErrorTypeInvalid p value detail.
Definition Forbidden (p : Path) (detail : string) : Error :=
  mk_Error ErrorTypeForbidden p (BadString "") detail.

(** *** The patterns *)

(** The patterns as the source writes them, and as [regexp.MustCompile]
    reads them. *)
Definition PKeyGUIDPattern : string := "^([0-9A-Fa-f]{2}:){7}([0-9A-Fa-f]{2})$".
Definition versionPattern : string := "^(\d+\.\d+-\d+(\.\d+)*)$".
Definition fqdnRegex : string :=
  "^[a-zA-Z0-9](?:[a-zA-Z0-9-]{0,61}[a-zA-Z0-9])?(?:\.[a-zA-Z]{2,})+$".
Definition sriovResourceNameRegex : string := "^([A-Za-z0-9][A-Za-z0-9_.]*)?[A-Za-z0-9]$".
Definition rdmaResourceNameRegex : string := "^([A-Za-z0-9][-A-Za-z0-9_.]*)?[A-Za-z0-9]$".

Definition PKeyGUIDRegex : regex :=
  Seq (Rep 7 (Seq (Rep 2 (Class is_hex)) (Class (is_char ":"))))
      (Rep 2 (Class is_hex)).

Definition versionRegex : regex :=
  Seq (Plus (Class is_digit))
 (Seq (Class (is_char "."))
 (Seq (Plus (Class is_digit))
 (Seq (Class (is_char "-"))
 (Seq (Plus (Class is_digit))
      (Star (Seq (Class (is_char ".")) (Plus (Class is_digit)))))))).

(** The classes [A-Za-z0-9_.] and [-A-Za-z0-9_.] of the resource names, and
    the class [a-zA-Z0-9-] of the first label of an FQDN. *)
Definition sriov_name_char (c : ascii) : bool :=
  is_alnum c || is_char "_" c || is_char "." c.
Definition rdma_name_char (c : ascii) : bool :=
  is_char "-" c || is_alnum c || is_char "_" c || is_char "." c.
Definition fqdn_label_char (c : ascii) : bool := is_alnum c || is_char "-" c.

Definition sriovResourceName_regex : regex :=
  Seq (Opt (Seq (Class is_alnum) (Star (Class sriov_name_char)))) (Class is_alnum).

Definition rdmaResourceName_regex : regex :=
  Seq (Opt (Seq (Class is_alnum) (Star (Class rdma_name_char)))) (Class is_alnum).

Definition fqdn_regex : regex :=
  Seq (Class is_alnum)
 (Seq (Opt (Seq (UpTo 61 (Class fqdn_label_char)) (Class is_alnum)))
      (Plus (Seq (Class (is_char ".")) (AtLeast 2 (Class is_alpha))))).

Definition isValidPKeyGUID (guid : string) : bool := MatchString PKeyGUIDRegex guid.
Definition isValidOFEDVersion (version : string) : bool := MatchString versionRegex version.
Definition isValidSriovNetworkDevicePluginResourceName (resourceName : string) : bool :=
  MatchString sriovResourceName_regex resourceName.
Definition isValidRdmaSharedDevicePluginResourceName (resourceName : string) : bool :=
  MatchString rdmaResourceName_regex resourceName.
Definition isValidFQDN (input : string) : bool := MatchString fqdn_regex input.

(** *** GUID ranges *)

(** [strings.ReplaceAll(s, ":", "")] *)
Definition remove_colons (s : list ascii) : list ascii :=
  List.filter (λ c, negb (is_char ":" c)) s.

Definition hex_digit_value (c : ascii) : option Z :=
  if in_range "0" "9" c then Some (Z.of_nat (nat_of_ascii c) - 48)%Z
  else if in_range "a" "f" c then Some (Z.of_nat (nat_of_ascii c) - 87)%Z
  else if in_range "A" "F" c then Some (Z.of_nat (nat_of_ascii c) - 55)%Z
  else None.

Fixpoint hex_digits_value (acc : Z) (s : list ascii) : option Z :=
  match s with
  | [] => Some acc
  | c :: s =>
      match hex_digit_value c with
      | Some d => hex_digits_value (16 * acc + d)%Z s
      | None => None
      end
  end.

(** [new(big.Int).SetString(s, 16)]: an optional sign, then one hexadecimal
    digit at least and nothing else; [None] is the failure [(nil, false)]. *)
Definition bigInt_SetString16 (s : list ascii) : option Z :=
  match s with
  | [] => None
  | c :: rest =>
      if is_char "-" c then
        match rest with [] => None | _ => Z.opp <$> hex_digits_value 0 rest end
      else if is_char "+" c then
        match rest with [] => None | _ => hex_digits_value 0 rest end
      else hex_digits_value 0 s
  end.

(** [isValidPKeyRange(startGUID, endGUID)]. When a GUID does not parse as a
    number, [SetString] returns a nil [*big.Int]. [Cmp] on two nil pointers
    finds them the same pointer and returns 0; on one nil pointer and a
    number it dereferences the nil one: [None] is that panic. *)
Definition isValidPKeyRange (startGUID endGUID : string) : option bool :=
  match bigInt_SetString16 (remove_colons (String.list_ascii_of_string startGUID)),
        bigInt_SetString16 (remove_colons (String.list_ascii_of_string endGUID)) with
  | Some startGUIDIntValue, Some endGUIDIntValue =>
      Some (bool_decide (startGUIDIntValue < endGUIDIntValue)%Z)
  | None, None => Some false
  | _, _ => None
  end.

(** The text of a GUID given by its bytes, each written as two characters:
    the bytes joined by colons. *)
Fixpoint GUID_text (bytes : list (ascii * ascii)) : list ascii :=
  match bytes with
  | [] => []
  | (h, l) :: rest =>
      match rest with
      | [] => [h; l]
      | _ => h :: l :: ":"%char :: GUID_text rest
      end
  end.

(** *** IBKubernetes *)

Record ImageSpec : Type := mk_ImageSpec { Repository : string }.

Record IBKubernetesSpec : Type := mk_IBKubernetesSpec {
  IBKubernetes_ImageSpec : ImageSpec;
  PKeyGUIDPoolRangeStart : string;
  PKeyGUIDPoolRangeEnd : string
}.

(** [func (ibk *ibKubernetesSpecWrapper) validate(fldPath) field.ErrorList];
    [None] if it panics. *)
Definition ibKubernetes_validate (ibk : IBKubernetesSpec) (fldPath : Path)
    : option ErrorList :=
  let allErrs : ErrorList := [] in
  if negb (isValidPKeyGUID (PKeyGUIDPoolRangeStart ibk))
     || negb (isValidPKeyGUID (PKeyGUIDPoolRangeEnd ibk)) then
    let allErrs :=
      if negb (isValidPKeyGUID (PKeyGUIDPoolRangeStart ibk)) then
        allErrs ++ [Invalid (Child fldPath "pKeyGUIDPoolRangeStart")
                      (BadString (PKeyGUIDPoolRangeStart ibk))
                      "pKeyGUIDPoolRangeStart must be a valid GUID format:xx:xx:xx:xx:xx:xx:xx:xx with Hexa numbers"]
      else allErrs in
    let allErrs :=
      if negb (isValidPKeyGUID (PKeyGUIDPoolRangeEnd ibk)) then
        allErrs ++ [Invalid (Child fldPath "pKeyGUIDPoolRangeEnd")
                      (BadString (PKeyGUIDPoolRangeEnd ibk))
                      "pKeyGUIDPoolRangeEnd must be a valid GUID format: xx:xx:xx:xx:xx:xx:xx:xx with Hexa numbers"]
      else allErrs in
    Some allErrs
  else
    valid ← isValidPKeyRange (PKeyGUIDPoolRangeStart ibk) (PKeyGUIDPoolRangeEnd ibk);
    if negb valid then
      Some (allErrs ++ [Invalid (Child fldPath "pKeyGUIDPoolRangeEnd")
                          (BadString (PKeyGUIDPoolRangeEnd ibk))
                          "pKeyGUIDPoolRangeStart-pKeyGUIDPoolRangeEnd must be a valid range"])
    else Some allErrs.

(** *** OFED driver *)

Record DriverUpgradePolicySpec : Type := mk_DriverUpgradePolicySpec {
  AutoUpgrade : bool;
  SafeLoad : bool
}.

Record OFEDDriverSpec : Type := mk_OFEDDriverSpec {
  OFEDDriver_ImageSpec : ImageSpec;
  Version : string;
  OfedUpgradePolicy : option DriverUpgradePolicySpec
}.

(** [func (ofedSpec *ofedDriverSpecWrapper) validateVersion(fldPath) field.ErrorList] *)
Definition ofedDriver_validateVersion (ofedSpec : OFEDDriverSpec) (fldPath : Path)
    : ErrorList :=
  let allErrs : ErrorList := [] in
  if negb (isValidOFEDVersion (Version ofedSpec)) then
    allErrs ++ [Invalid (Child fldPath "version") (BadString (Version ofedSpec))
                  "invalid OFED version, the regex used for validation is ^(\d+\.\d+-\d+(\.\d+)*)$ "]
  else allErrs.

(** [func (ofedSpec *ofedDriverSpecWrapper) validateSafeLoad(fldPath) field.ErrorList] *)
Definition ofedDriver_validateSafeLoad (ofedSpec : OFEDDriverSpec) (fldPath : Path)
    : ErrorList :=
  match OfedUpgradePolicy ofedSpec with
  | None => []
  | Some upgradePolicy =>
      if negb (SafeLoad upgradePolicy) then []
      else
        let allErrs : ErrorList := [] in
        let upgradePolicyFieldPath := Child fldPath "upgradePolicy" in
        if negb (AutoUpgrade upgradePolicy) then
          allErrs ++ [Forbidden (Child upgradePolicyFieldPath "safeLoad")
                        ("safeLoad requires "
                           +:+ Path_String (Child upgradePolicyFieldPath "autoUpgrade")
                           +:+ " to be true")]
        else allErrs
  end.

(** The shape of a version: numbers (non-empty strings of digits) [major],
    [minor], [build] and further ones, written [major.minor-build.n1.n2...]. *)
Definition number (s : list ascii) : Prop := s ≠ [] ∧ Forall (λ c, is_digit c = true) s.

Definition version_text (major minor build : list ascii) (more : list (list ascii))
    : list ascii :=
  major ++ "."%char :: minor ++ "-"%char :: build
        ++ concat ((λ n, "."%char :: n) <$> more).

(** *** GUIDs *)

Lemma is_char_true (a c : ascii) : is_char a c = true ↔ c = a.
Proof. unfold is_char. rewrite Ascii.eqb_eq. split; congruence. Qed.

Ltac lang_inv :=
  repeat match goal with
         | H : ∃ _, _ |- _ => destruct H
         | H : _ ∧ _ |- _ => destruct H
         | H : is_char _ _ = true |- _ => apply is_char_true in H
         end; subst.

Lemma PKeyGUID_bytes (guid : string) :
  isValidPKeyGUID guid = true →
  ∃ bytes, length bytes = 8 ∧
           Forall (λ b, is_hex b.1 = true ∧ is_hex b.2 = true) bytes ∧
           String.list_ascii_of_string guid = GUID_text bytes.
Proof.
  unfold isValidPKeyGUID.
  intros H%MatchString_spec. unfold PKeyGUIDRegex in H.
  cbn -[is_hex is_char] in H. lang_inv.
  match goal with H : String.list_ascii_of_string guid = _ |- _ => simpl in H end.
  eexists [(_, _); (_, _); (_, _); (_, _); (_, _); (_, _); (_, _); (_, _)].
  split; [reflexivity|]. split; cycle 1.
  { match goal with H : String.list_ascii_of_string guid = _ |- _ => rewrite H end.
    simpl. reflexivity. }
  repeat constructor; assumption.
Qed.

(** X12. [isValidPKeyGUID] accepts exactly the texts of eight bytes, each
    written as two hexadecimal digits of either case, joined by colons:
    the format [xx:xx:xx:xx:xx:xx:xx:xx] of the error message. *)
Theorem isValidPKeyGUID_iff (guid : string) :
  isValidPKeyGUID guid = true ↔
  ∃ bytes, length bytes = 8 ∧
           Forall (λ b, is_hex b.1 = true ∧ is_hex b.2 = true) bytes ∧
           String.list_ascii_of_string guid = GUID_text bytes.
Proof.
  split; [apply PKeyGUID_bytes|].
  intros (bytes & Hlen & Hall & Heq).
  do 9 (destruct bytes as [|[? ?] bytes]; try discriminate Hlen).
  repeat match goal with
         | H : Forall _ (_ :: _) |- _ => inversion H; subst; clear H
         end.
  simpl in *. lang_inv.
  unfold isValidPKeyGUID, MatchString. rewrite Heq. unfold PKeyGUIDRegex.
  repeat (cbn -[is_hex];
          match goal with
          | H : is_hex ?c = true |- context [is_hex ?c] => rewrite H
          end).
  reflexivity.
Qed.

Lemma hex_digit_value_is_Some (c : ascii) :
  is_hex c = true → is_Some (hex_digit_value c).
Proof.
  unfold is_hex, hex_digit_value.
  destruct (in_range "0" "9" c), (in_range "a" "f" c), (in_range "A" "F" c);
    simpl; by eauto.
Qed.

Lemma hex_not_char (a c : ascii) :
  is_hex a = false → is_hex c = true → is_char a c = false.
Proof.
  intros Ha Hc. destruct (is_char a c) eqn:E; [|done].
  apply is_char_true in E. congruence.
Qed.

Lemma hex_digits_value_is_Some (s : list ascii) (acc : Z) :
  Forall (λ c, is_hex c = true) s → is_Some (hex_digits_value acc s).
Proof.
  intros Hall. revert acc. induction Hall as [|c s Hc _ IH]; intros acc; simpl.
  - by eexists.
  - destruct (hex_digit_value_is_Some c Hc) as [d ->]. apply IH.
Qed.

Lemma SetString16_is_Some (s : list ascii) :
  s ≠ [] → Forall (λ c, is_hex c = true) s → is_Some (bigInt_SetString16 s).
Proof.
  intros Hne Hall. destruct s as [|c s]; [done|].
  inversion Hall as [|? ? Hc Hs]; subst. unfold bigInt_SetString16.
  rewrite (hex_not_char "-" c), (hex_not_char "+" c) by done.
  by apply hex_digits_value_is_Some.
Qed.

Lemma remove_colons_GUID_text (bytes : list (ascii * ascii)) :
  Forall (λ b, is_hex b.1 = true ∧ is_hex b.2 = true) bytes →
  remove_colons (GUID_text bytes) = flat_map (λ b, [b.1; b.2]) bytes.
Proof.
  intros Hall. induction Hall as [|[h l] rest [Hh Hl] Hrest IH]; [done|].
  simpl in Hh, Hl.
  assert (remove_colons (h :: l :: ":"%char :: GUID_text rest)
          = h :: l :: remove_colons (GUID_text rest)) as Hcons.
  { unfold remove_colons. cbn -[is_char].
    rewrite (hex_not_char ":" h), (hex_not_char ":" l) by done. done. }
  change (GUID_text ((h, l) :: rest)) with
    (match rest with [] => [h; l] | _ => h :: l :: ":"%char :: GUID_text rest end).
  destruct rest as [|b rest].
  - unfold remove_colons. cbn -[is_char].
    rewrite (hex_not_char ":" h), (hex_not_char ":" l) by done. done.
  - rewrite Hcons, IH. done.
Qed.

Lemma PKeyGUID_value (guid : string) :
  isValidPKeyGUID guid = true →
  is_Some (bigInt_SetString16 (remove_colons (String.list_ascii_of_string guid))).
Proof.
  intros (bytes & Hlen & Hall & ->)%PKeyGUID_bytes.
  rewrite (remove_colons_GUID_text bytes Hall).
  apply SetString16_is_Some.
  - destruct bytes; [done|]. done.
  - clear Hlen. induction Hall as [|[h l] rest [Hh Hl] _ IH]; [constructor|].
    simpl. by repeat constructor.
Qed.

(** X13. On GUIDs that [isValidPKeyGUID] accepts, [isValidPKeyRange] never
    runs into the nil [*big.Int], and it is a strict order: no GUID forms a
    valid range with itself, a valid range is not valid backwards, and
    valid ranges chain. *)
Theorem isValidPKeyRange_strict_order (a b c : string) :
  isValidPKeyGUID a = true → isValidPKeyGUID b = true → isValidPKeyGUID c = true →
  is_Some (isValidPKeyRange a b) ∧
  isValidPKeyRange a a = Some false ∧
  (isValidPKeyRange a b = Some true → isValidPKeyRange b a = Some false) ∧
  (isValidPKeyRange a b = Some true → isValidPKeyRange b c = Some true →
   isValidPKeyRange a c = Some true).
Proof.
  intros [va Ha]%PKeyGUID_value [vb Hb]%PKeyGUID_value [vc Hc]%PKeyGUID_value.
  unfold isValidPKeyRange. rewrite Ha, Hb, Hc.
  split; [by eexists|]. split; [|split].
  - f_equal. apply bool_decide_eq_false. lia.
  - intros [= H%bool_decide_eq_true]. f_equal. apply bool_decide_eq_false. lia.
  - intros [= H1%bool_decide_eq_true] [= H2%bool_decide_eq_true].
    f_equal. apply bool_decide_eq_true. lia.
Qed.

(** X14. The validation of an IBKubernetes spec never panics and returns at
    most two errors, all of type Invalid. It returns none exactly when both
    GUIDs are well formed and the start of the pool is strictly below its
    end; an ill-formed start (end) is reported at [pKeyGUIDPoolRangeStart]
    ([pKeyGUIDPoolRangeEnd]), and then the range is not looked at. *)
Theorem ibKubernetes_validate_spec (ibk : IBKubernetesSpec) (fldPath : Path) :
  ∃ errs,
    ibKubernetes_validate ibk fldPath = Some errs ∧
    length errs ≤ 2 ∧
    Forall (λ e, ErrType e = ErrorTypeInvalid) errs ∧
    (errs = [] ↔
       isValidPKeyGUID (PKeyGUIDPoolRangeStart ibk) = true ∧
       isValidPKeyGUID (PKeyGUIDPoolRangeEnd ibk) = true ∧
       isValidPKeyRange (PKeyGUIDPoolRangeStart ibk) (PKeyGUIDPoolRangeEnd ibk)
         = Some true) ∧
    (isValidPKeyGUID (PKeyGUIDPoolRangeStart ibk) = false ↔
       Child fldPath "pKeyGUIDPoolRangeStart" ∈ Field <$> errs) ∧
    (isValidPKeyGUID (PKeyGUIDPoolRangeEnd ibk) = false →
       Field <$> errs = (if isValidPKeyGUID (PKeyGUIDPoolRangeStart ibk)
                         then [] else [Child fldPath "pKeyGUIDPoolRangeStart"])
                        ++ [Child fldPath "pKeyGUIDPoolRangeEnd"]).
Proof.
  unfold ibKubernetes_validate.
  destruct (isValidPKeyGUID (PKeyGUIDPoolRangeStart ibk)) eqn:Hs;
    destruct (isValidPKeyGUID (PKeyGUIDPoolRangeEnd ibk)) eqn:He; simpl.
  - destruct (PKeyGUID_value _ Hs) as [vs Hvs], (PKeyGUID_value _ He) as [ve Hve].
    unfold isValidPKeyRange. rewrite Hvs, Hve. simpl.
    assert (Child fldPath "pKeyGUIDPoolRangeStart" ≠ Child fldPath "pKeyGUIDPoolRangeEnd")
      as Hne by (unfold Child; intros H%app_inv_head; discriminate H).
    destruct (bool_decide (vs < ve)%Z) eqn:Hlt; simpl; eexists; (split; [reflexivity|]);
      simpl; repeat split; try done; try lia; try (by repeat constructor);
      try (by intros ?%elem_of_nil);
      try (intros H; apply list_elem_of_singleton in H; congruence);
      try (by intros (? & ? & ?)).
  - eexists; split; [reflexivity|]. simpl. repeat split; try done; try lia;
      try (by repeat constructor); try (by intros ?%elem_of_nil);
      try (by intros (? & ? & ?)).
    intros H. apply list_elem_of_singleton in H.
    unfold Child in H. apply app_inv_head in H. discriminate H.
  - eexists; split; [reflexivity|]. simpl. repeat split; try done; try lia;
      try (by repeat constructor); try (by intros (? & ? & ?)).
    all: intros _; left.
  - eexists; split; [reflexivity|]. simpl. repeat split; try done; try lia;
      try (by repeat constructor); try (by intros (? & ? & ?)).
    all: intros _; left.
Qed.

(** *** Versions, resource names, FQDNs *)

Lemma lang_dotted_numbers (s : list ascii) :
  lang (Star (Seq (Class (is_char ".")) (Plus (Class is_digit)))) s ↔
  ∃ more, Forall number more ∧ s = concat ((λ n, "."%char :: n) <$> more).
Proof.
  split.
  - intros (ss & -> & Hall). induction Hall as [|p ss Hp _ IH].
    + by exists [].
    + destruct IH as (more & Hmore & Heq).
      destruct Hp as (s1 & n & -> & (c & -> & Hc%is_char_true) & Hn%lang_Plus_Class).
      subst c. exists (n :: more). split; [by constructor|].
      simpl. by rewrite Heq.
  - intros (more & Hall & ->). exists ((λ n, "."%char :: n) <$> more). split; [done|].
    apply Forall_fmap. eapply Forall_impl; [exact Hall|]. intros n Hn.
    exists ["."%char], n. split; [done|]. split.
    + exists "."%char. split; [done|]. by apply is_char_true.
    + by apply lang_Plus_Class.
Qed.

(** X15. [isValidOFEDVersion] accepts exactly the versions written
    [major.minor-build] followed by any number of [.n], where [major],
    [minor], [build] and every [n] are non-empty strings of decimal digits:
    one dash, and no empty component. *)
Theorem isValidOFEDVersion_iff (version : string) :
  isValidOFEDVersion version = true ↔
  ∃ major minor build more,
    number major ∧ number minor ∧ number build ∧ Forall number more ∧
    String.list_ascii_of_string version = version_text major minor build more.
Proof.
  unfold isValidOFEDVersion. rewrite MatchString_spec. unfold versionRegex.
  split.
  - intros (major & s1 & -> & Hmajor%lang_Plus_Class &
            d & s2 & -> & (c1 & -> & Hc1%is_char_true) &
            minor & s3 & -> & Hminor%lang_Plus_Class &
            m & s4 & -> & (c2 & -> & Hc2%is_char_true) &
            build & rest & -> & Hbuild%lang_Plus_Class &
            (more & Hmore & ->)%lang_dotted_numbers).
    subst. by exists major, minor, build, more.
  - intros (major & minor & build & more & Hmajor & Hminor & Hbuild & Hmore & ->).
    unfold version_text.
    exists major, ("."%char :: minor ++ "-"%char :: build
                    ++ concat ((λ n, "."%char :: n) <$> more)).
    split; [done|]. split; [by apply lang_Plus_Class|].
    exists ["."%char], (minor ++ "-"%char :: build
                          ++ concat ((λ n, "."%char :: n) <$> more)).
    split; [done|]. split; [exists "."%char; split; [done|by apply is_char_true]|].
    exists minor, ("-"%char :: build ++ concat ((λ n, "."%char :: n) <$> more)).
    split; [done|]. split; [by apply lang_Plus_Class|].
    exists ["-"%char], (build ++ concat ((λ n, "."%char :: n) <$> more)).
    split; [done|]. split; [exists "-"%char; split; [done|by apply is_char_true]|].
    exists build, (concat ((λ n, "."%char :: n) <$> more)).
    split; [done|]. split; [by apply lang_Plus_Class|].
    apply lang_dotted_numbers. by exists more.
Qed.

(** X16. The two checks of an OFED driver spec together return no error
    exactly when the version is valid and safe load is not asked for
    without automatic upgrade; there are at most two errors, an Invalid one
    at [version] and a Forbidden one at [upgradePolicy.safeLoad]. *)
Theorem ofedDriver_validate_spec (ofedSpec : OFEDDriverSpec) (fldPath : Path) :
  let errs := ofedDriver_validateVersion ofedSpec fldPath
              ++ ofedDriver_validateSafeLoad ofedSpec fldPath in
  (errs = [] ↔
     isValidOFEDVersion (Version ofedSpec) = true ∧
     ∀ upgradePolicy, OfedUpgradePolicy ofedSpec = Some upgradePolicy →
       SafeLoad upgradePolicy = true → AutoUpgrade upgradePolicy = true) ∧
  length errs ≤ 2 ∧
  Forall (λ e, (ErrType e = ErrorTypeInvalid ∧ Field e = Child fldPath "version") ∨
               (ErrType e = ErrorTypeForbidden ∧
                Field e = Child (Child fldPath "upgradePolicy") "safeLoad")) errs ∧
  (isValidOFEDVersion (Version ofedSpec) = false →
     Child fldPath "version" ∈ Field <$> errs) ∧
  (∀ upgradePolicy, OfedUpgradePolicy ofedSpec = Some upgradePolicy →
     SafeLoad upgradePolicy = true → AutoUpgrade upgradePolicy = false →
     Child (Child fldPath "upgradePolicy") "safeLoad" ∈ Field <$> errs).
Proof.
  cbv zeta. unfold ofedDriver_validateVersion, ofedDriver_validateSafeLoad.
  destruct (isValidOFEDVersion (Version ofedSpec));
    destruct (OfedUpgradePolicy ofedSpec) as [[auto safe]|];
    try destruct safe; try destruct auto; simpl.
  all: repeat split.
  all: try done; try lia; try (by repeat constructor); try (by intros [? ?]).
  all: try (intros ? [= <-]; simpl; done).
  all: try (intros [_ H]; by specialize (H _ eq_refl eq_refl)).
  all: try (repeat constructor; auto; done).
  all: try (intros ? [= <-]; simpl; intros _ _; repeat constructor).
  all: try (intros _; repeat constructor).
Qed.

Lemma resource_name_lang (cls : ascii → bool) (s : list ascii) :
  (∀ c, is_alnum c = true → cls c = true) →
  lang (Seq (Opt (Seq (Class is_alnum) (Star (Class cls)))) (Class is_alnum)) s ↔
  Forall (λ c, cls c = true) s ∧
  (∃ c, head s = Some c ∧ is_alnum c = true) ∧
  (∃ c, last s = Some c ∧ is_alnum c = true).
Proof.
  intros Hsub. split.
  - intros (s1 & s2 & -> & Hs1 & (d & -> & Hd)).
    destruct Hs1 as [(s0 & mid & -> & (c & -> & Hc) & Hmid%lang_Star_Class) | Heps];
      [|simpl in Heps; subst s1].
    + split; [|split].
      * apply Forall_app. split; [constructor; auto|]. repeat constructor; auto.
      * by exists c.
      * exists d. split; [|done]. apply last_snoc.
    + simpl. split; [|split].
      * repeat constructor; auto.
      * exists d. by split.
      * exists d. by split.
  - intros (Hall & (c & Hhead & Hc) & (d & Hlast & Hd)).
    destruct s as [|c' s']; [done|]. injection Hhead as ->.
    destruct s' as [|x s'' _] using rev_ind.
    + exists [], [c]. split; [done|]. split; [by right|by exists c].
    + rewrite app_comm_cons, last_snoc in Hlast. injection Hlast as ->.
      exists (c :: s''), [d]. split; [by rewrite app_comm_cons|].
      split; [|by exists d]. left.
      exists [c], s''. split; [done|]. split; [by exists c|].
      apply lang_Star_Class.
      rewrite app_comm_cons in Hall. apply Forall_app in Hall as [Hall _].
      by inversion Hall.
Qed.

Lemma alnum_sriov_name_char (c : ascii) : is_alnum c = true → sriov_name_char c = true.
Proof. unfold sriov_name_char. by intros ->. Qed.

Lemma sriov_rdma_name_char (c : ascii) : sriov_name_char c = true → rdma_name_char c = true.
Proof.
  unfold sriov_name_char, rdma_name_char.
  destruct (is_alnum c), (is_char "_" c), (is_char "." c), (is_char "-" c); done.
Qed.

Lemma sriov_name_shape (resourceName : string) :
  isValidSriovNetworkDevicePluginResourceName resourceName = true ↔
  Forall (λ c, sriov_name_char c = true) (String.list_ascii_of_string resourceName) ∧
  (∃ c, head (String.list_ascii_of_string resourceName) = Some c ∧ is_alnum c = true) ∧
  (∃ c, last (String.list_ascii_of_string resourceName) = Some c ∧ is_alnum c = true).
Proof.
  unfold isValidSriovNetworkDevicePluginResourceName. rewrite MatchString_spec.
  apply resource_name_lang, alnum_sriov_name_char.
Qed.

Lemma rdma_name_shape (resourceName : string) :
  isValidRdmaSharedDevicePluginResourceName resourceName = true ↔
  Forall (λ c, rdma_name_char c = true) (String.list_ascii_of_string resourceName) ∧
  (∃ c, head (String.list_ascii_of_string resourceName) = Some c ∧ is_alnum c = true) ∧
  (∃ c, last (String.list_ascii_of_string resourceName) = Some c ∧ is_alnum c = true).
Proof.
  unfold isValidRdmaSharedDevicePluginResourceName. rewrite MatchString_spec.
  apply resource_name_lang. intros c Hc.
  by apply sriov_rdma_name_char, alnum_sriov_name_char.
Qed.

(** X17. A resource name is valid for the SR-IOV device plugin exactly when
    it is made of alphanumeric characters, [_] and [.], and starts and ends
    with an alphanumeric character (so it is not empty), as the error
    message says. *)
Theorem isValidSriovNetworkDevicePluginResourceName_iff (resourceName : string) :
  isValidSriovNetworkDevicePluginResourceName resourceName = true ↔
  Forall (λ c, is_alnum c = true ∨ c = "_"%char ∨ c = "."%char)
         (String.list_ascii_of_string resourceName) ∧
  (∃ c, head (String.list_ascii_of_string resourceName) = Some c ∧ is_alnum c = true) ∧
  (∃ c, last (String.list_ascii_of_string resourceName) = Some c ∧ is_alnum c = true).
Proof.
  rewrite sriov_name_shape.
  assert (∀ c, sriov_name_char c = true ↔
               is_alnum c = true ∨ c = "_"%char ∨ c = "."%char) as Hchar.
  { intros c. unfold sriov_name_char.
    rewrite !orb_true_iff, !is_char_true. tauto. }
  split; intros (Hall & Hhead & Hlast); (split; [|done]);
    (eapply Forall_impl; [exact Hall|]); intros c; apply Hchar.
Qed.

(** X18. A resource name is valid for the RDMA shared device plugin exactly
    when it is made of alphanumeric characters, [-], [_] and [.], and starts
    and ends with an alphanumeric character; so every name valid for the
    SR-IOV device plugin is valid for the RDMA shared device plugin too. *)
Theorem isValidRdmaSharedDevicePluginResourceName_iff (resourceName : string) :
  (isValidRdmaSharedDevicePluginResourceName resourceName = true ↔
   Forall (λ c, is_alnum c = true ∨ c = "-"%char ∨ c = "_"%char ∨ c = "."%char)
          (String.list_ascii_of_string resourceName) ∧
   (∃ c, head (String.list_ascii_of_string resourceName) = Some c ∧ is_alnum c = true) ∧
   (∃ c, last (String.list_ascii_of_string resourceName) = Some c ∧ is_alnum c = true)) ∧
  (isValidSriovNetworkDevicePluginResourceName resourceName = true →
   isValidRdmaSharedDevicePluginResourceName resourceName = true).
Proof.
  split.
  - rewrite rdma_name_shape.
    assert (∀ c, rdma_name_char c = true ↔
                 is_alnum c = true ∨ c = "-"%char ∨ c = "_"%char ∨ c = "."%char) as Hchar.
    { intros c. unfold rdma_name_char.
      rewrite !orb_true_iff, !is_char_true. tauto. }
    split; intros (Hall & Hhead & Hlast); (split; [|done]);
      (eapply Forall_impl; [exact Hall|]); intros c; apply Hchar.
  - rewrite sriov_name_shape, rdma_name_shape.
    intros (Hall & Hhead & Hlast). split; [|done].
    eapply Forall_impl; [exact Hall|]. apply sriov_rdma_name_char.
Qed.

Lemma lang_UpTo_Class (p : ascii → bool) (n : nat) (s : list ascii) :
  lang (UpTo n (Class p)) s → length s ≤ n ∧ Forall (λ c, p c = true) s.
Proof.
  revert s. induction n as [|n IH]; intros s; simpl.
  - intros ->. split; [done|constructor].
  - intros [(s1 & s2 & -> & (c & -> & Hc) & Hs2) | Heps].
    + destruct (IH _ Hs2) as [Hlen Hall]. simpl. split; [lia|by constructor].
    + simpl in Heps. subst s. split; [simpl; lia|constructor].
Qed.

(** X19. In a string that [isValidFQDN] accepts, the first label (the part
    before the first dot) has between 1 and 63 characters, all alphanumeric
    or [-]; and everything after that dot is made of letters and dots only,
    the first two of them letters: digits and hyphens are accepted in the
    first label only. *)
Theorem isValidFQDN_shape (input : string) :
  isValidFQDN input = true →
  ∃ label a1 a2 rest,
    String.list_ascii_of_string input = label ++ "."%char :: a1 :: a2 :: rest ∧
    1 ≤ length label ≤ 63 ∧
    Forall (λ c, is_alnum c = true ∨ c = "-"%char) label ∧
    is_alpha a1 = true ∧ is_alpha a2 = true ∧
    Forall (λ c, is_alpha c = true ∨ c = "."%char) rest.
Proof.
  unfold isValidFQDN. rewrite MatchString_spec. unfold fqdn_regex.
  intros (s1 & s2 & -> & (c & -> & Hc) &
          opt & dom & -> & Hopt &
          first & others & -> &
          (dot & tld & -> & (d & -> & Hd%is_char_true) &
           two & more & -> & Htwo & Hmore) & Hothers).
  subst d. simpl in Htwo.
  destruct Htwo as (x1 & y & -> & (a1 & -> & Ha1) & x2 & z & -> & (a2 & -> & Ha2) & ->).
  assert (fqdn_label_char c = true) as Hc'
    by (unfold fqdn_label_char; by rewrite Hc).
  assert (∀ c, fqdn_label_char c = true → is_alnum c = true ∨ c = "-"%char) as Hlabel.
  { intros c0. unfold fqdn_label_char. rewrite orb_true_iff, is_char_true. tauto. }
  assert (Forall (λ c, is_alpha c = true ∨ c = "."%char) (more ++ others)) as Hrest.
  { apply Forall_app. split.
    - apply (lang_chars_in _ (Star (Class is_alpha))); [|done]. simpl. auto.
    - apply (lang_chars_in _
               (Star (Seq (Class (is_char ".")) (AtLeast 2 (Class is_alpha)))));
        [|done].
      cbn -[is_char is_alpha]. repeat split; auto. intros c0 ->%is_char_true. auto. }
  destruct Hopt as [(u & last & -> & Hu%lang_UpTo_Class & (e & -> & He)) | Heps];
    [|simpl in Heps; subst opt].
  - destruct Hu as [Hlen Hu].
    exists (c :: u ++ [e]), a1, a2, (more ++ others). split; [|split; [|split]].
    + simpl. rewrite <- !app_assoc. done.
    + simpl. rewrite length_app. simpl. lia.
    + constructor; [auto|]. apply Forall_app. split.
      * eapply Forall_impl; [exact Hu|]. auto.
      * repeat constructor. auto.
    + done.
  - exists [c], a1, a2, (more ++ others). split; [|split; [|split]].
    + done.
    + simpl. lia.
    + repeat constructor. auto.
    + done.
Qed.

End Validator.

(** ** The admission webhook: repositories and resource names *)

Module PolicyValidator.
Import Regexp Validator.
Section PolicyValidator.

(** [reference.ParseNormalizedNamed(repo)] returns no error. *)
Variable ParseNormalizedNamed : string → bool.

(** [v1alpha1.NicClusterPolicy], as far as the validation of repositories
    reads it. *)
Record DevicePluginSpec : Type := mk_DevicePluginSpec {
  DevicePlugin_ImageSpec : ImageSpec;
  Config : option string
}.

Record NVIPAMSpec : Type := mk_NVIPAMSpec { NVIPAM_ImageSpec : ImageSpec }.

Record NICFeatureDiscoverySpec : Type := mk_NICFeatureDiscoverySpec {
  NICFeatureDiscovery_ImageSpec : ImageSpec
}.

Record SecondaryNetworkSpec : Type := mk_SecondaryNetworkSpec {
  CniPlugins : option ImageSpec;
  IPoIB : option ImageSpec;
  Multus : option ImageSpec;
  IpamPlugin : option ImageSpec
}.

Record NicClusterPolicySpec : Type := mk_NicClusterPolicySpec {
  OFEDDriver : option OFEDDriverSpec;
  RdmaSharedDevicePlugin : option DevicePluginSpec;
  SriovDevicePlugin : option DevicePluginSpec;
  IBKubernetes : option IBKubernetesSpec;
  NvIpam : option NVIPAMSpec;
  NicFeatureDiscovery : option NICFeatureDiscoverySpec;
  SecondaryNetwork : option SecondaryNetworkSpec
}.

Record NicClusterPolicy : Type := mk_NicClusterPolicy {
  Name : string;
  Spec : NicClusterPolicySpec
}.

(** [func validateRepository(repo, allErrs, fp, child) field.ErrorList] *)
Definition validateRepository (repo : string) (allErrs : ErrorList) (fp : Path)
    (child : string) : ErrorList :=
  if negb (ParseNormalizedNamed repo) then
    allErrs ++ [Invalid (Child (Child fp child) "repository") (BadString repo)
                  "invalid container image repository format"]
  else allErrs.

(** [func (w *nicClusterPolicyValidator) validateRepositories(allErrs) field.ErrorList] *)
Definition validateRepositories (w : NicClusterPolicy) (allErrs : ErrorList)
    : ErrorList :=
  let fp := NewPath "spec" in
  let allErrs :=
    match OFEDDriver (Spec w) with
    | Some x => validateRepository (Repository (OFEDDriver_ImageSpec x)) allErrs fp
                  "nicFeatureDiscovery"
    | None => allErrs
    end in
  let allErrs :=
    match RdmaSharedDevicePlugin (Spec w) with
    | Some x => validateRepository (Repository (DevicePlugin_ImageSpec x)) allErrs fp
                  "rdmaSharedDevicePlugin"
    | None => allErrs
    end in
  let allErrs :=
    match SriovDevicePlugin (Spec w) with
    | Some x => validateRepository (Repository (DevicePlugin_ImageSpec x)) allErrs fp
                  "sriovDevicePlugin"
    | None => allErrs
    end in
  let allErrs :=
    match IBKubernetes (Spec w) with
    | Some x => validateRepository (Repository (IBKubernetes_ImageSpec x)) allErrs fp
                  "ibKubernetes"
    | None => allErrs
    end in
  let allErrs :=
    match NvIpam (Spec w) with
    | Some x => validateRepository (Repository (NVIPAM_ImageSpec x)) allErrs fp "nvIpam"
    | None => allErrs
    end in
  let allErrs :=
    match NicFeatureDiscovery (Spec w) with
    | Some x => validateRepository (Repository (NICFeatureDiscovery_ImageSpec x)) allErrs fp
                  "nicFeatureDiscovery"
    | None => allErrs
    end in
  match SecondaryNetwork (Spec w) with
  | Some secondaryNetwork =>
      let snfp := Child fp "secondaryNetwork" in
      let allErrs :=
        match CniPlugins secondaryNetwork with
        | Some x => validateRepository (Repository x) allErrs snfp "cniPlugins"
        | None => allErrs
        end in
      let allErrs :=
        match IPoIB secondaryNetwork with
        | Some x => validateRepository (Repository x) allErrs snfp "ipoib"
        | None => allErrs
        end in
      let allErrs :=
        match Multus secondaryNetwork with
        | Some x => validateRepository (Repository x) allErrs snfp "multus"
        | None => allErrs
        end in
      match IpamPlugin secondaryNetwork with
      | Some x => validateRepository (Repository x) allErrs snfp "ipamPlugin"
      | None => allErrs
      end
  | None => allErrs
  end.

(** The repositories a policy configures, each with the component it
    belongs to, in the order they are validated. *)
Definition repositories (w : NicClusterPolicy) : list (string * string) :=
  option_list ((λ x, ("ofedDriver", Repository (OFEDDriver_ImageSpec x)))
                 <$> OFEDDriver (Spec w))
  ++ option_list ((λ x, ("rdmaSharedDevicePlugin", Repository (DevicePlugin_ImageSpec x)))
                    <$> RdmaSharedDevicePlugin (Spec w))
  ++ option_list ((λ x, ("sriovDevicePlugin", Repository (DevicePlugin_ImageSpec x)))
                    <$> SriovDevicePlugin (Spec w))
  ++ option_list ((λ x, ("ibKubernetes", Repository (IBKubernetes_ImageSpec x)))
                    <$> IBKubernetes (Spec w))
  ++ option_list ((λ x, ("nvIpam", Repository (NVIPAM_ImageSpec x)))
                    <$> NvIpam (Spec w))
  ++ option_list ((λ x, ("nicFeatureDiscovery", Repository (NICFeatureDiscovery_ImageSpec x)))
                    <$> NicFeatureDiscovery (Spec w))
  ++ match SecondaryNetwork (Spec w) with
     | Some secondaryNetwork =>
         option_list ((λ x, ("cniPlugins", Repository x)) <$> CniPlugins secondaryNetwork)
         ++ option_list ((λ x, ("ipoib", Repository x)) <$> IPoIB secondaryNetwork)
         ++ option_list ((λ x, ("multus", Repository x)) <$> Multus secondaryNetwork)
         ++ option_list ((λ x, ("ipamPlugin", Repository x)) <$> IpamPlugin secondaryNetwork)
     | None => []
     end.

(** The field an invalid repository of a component is reported at. *)
Definition reported_at (component : string) : Path :=
  if String.eqb component "ofedDriver" then ["spec"; "nicFeatureDiscovery"; "repository"]
  else if existsb (String.eqb component) ["cniPlugins"; "ipoib"; "multus"; "ipamPlugin"]
  then ["spec"; "secondaryNetwork"; component; "repository"]
  else ["spec"; component; "repository"].

Definition repository_errors (entry : string * string) : ErrorList :=
  if ParseNormalizedNamed entry.2 then []
  else [Invalid (reported_at entry.1) (BadString entry.2)
          "invalid container image repository format"].

(** *** Repositories *)

Lemma validateRepository_app (repo : string) (allErrs : ErrorList) (fp : Path)
    (child : string) :
  validateRepository repo allErrs fp child =
    allErrs ++ (if ParseNormalizedNamed repo then []
                else [Invalid (fp ++ [child; "repository"]) (BadString repo)
                        "invalid container image repository format"]).
Proof.
  unfold validateRepository, Child.
  destruct (ParseNormalizedNamed repo); simpl; [by rewrite app_nil_r|].
  by rewrite <- app_assoc.
Qed.

Lemma validateRepository_step {X : Type} (o : option X) (g : X → string)
    (component child : string) (allErrs : ErrorList) (fp : Path) :
  reported_at component = fp ++ [child; "repository"] →
  match o with
  | Some x => validateRepository (g x) allErrs fp child
  | None => allErrs
  end = allErrs ++ flat_map repository_errors (option_list ((λ x, (component, g x)) <$> o)).
Proof.
  intros Hpath. destruct o as [x|]; simpl; [|by rewrite app_nil_r].
  rewrite validateRepository_app. unfold repository_errors. simpl.
  rewrite Hpath. by destruct (ParseNormalizedNamed (g x)).
Qed.

Lemma validateRepositories_app (w : NicClusterPolicy) (allErrs : ErrorList) :
  validateRepositories w allErrs =
    allErrs ++ flat_map repository_errors (repositories w).
Proof.
  unfold validateRepositories, repositories. cbv zeta.
  rewrite !flat_map_app.
  destruct (SecondaryNetwork (Spec w)) as [sn|].
  - rewrite (validateRepository_step (IpamPlugin sn) Repository "ipamPlugin") by done.
    rewrite (validateRepository_step (Multus sn) Repository "multus") by done.
    rewrite (validateRepository_step (IPoIB sn) Repository "ipoib") by done.
    rewrite (validateRepository_step (CniPlugins sn) Repository "cniPlugins") by done.
    rewrite (validateRepository_step (NicFeatureDiscovery (Spec w))
               (λ x, Repository (NICFeatureDiscovery_ImageSpec x)) "nicFeatureDiscovery")
      by done.
    rewrite (validateRepository_step (NvIpam (Spec w))
               (λ x, Repository (NVIPAM_ImageSpec x)) "nvIpam") by done.
    rewrite (validateRepository_step (IBKubernetes (Spec w))
               (λ x, Repository (IBKubernetes_ImageSpec x)) "ibKubernetes") by done.
    rewrite (validateRepository_step (SriovDevicePlugin (Spec w))
               (λ x, Repository (DevicePlugin_ImageSpec x)) "sriovDevicePlugin") by done.
    rewrite (validateRepository_step (RdmaSharedDevicePlugin (Spec w))
               (λ x, Repository (DevicePlugin_ImageSpec x)) "rdmaSharedDevicePlugin")
      by done.
    rewrite (validateRepository_step (OFEDDriver (Spec w))
               (λ x, Repository (OFEDDriver_ImageSpec x)) "ofedDriver") by done.
    rewrite !flat_map_app. by rewrite <- !app_assoc.
  - rewrite (validateRepository_step (NicFeatureDiscovery (Spec w))
               (λ x, Repository (NICFeatureDiscovery_ImageSpec x)) "nicFeatureDiscovery")
      by done.
    rewrite (validateRepository_step (NvIpam (Spec w))
               (λ x, Repository (NVIPAM_ImageSpec x)) "nvIpam") by done.
    rewrite (validateRepository_step (IBKubernetes (Spec w))
               (λ x, Repository (IBKubernetes_ImageSpec x)) "ibKubernetes") by done.
    rewrite (validateRepository_step (SriovDevicePlugin (Spec w))
               (λ x, Repository (DevicePlugin_ImageSpec x)) "sriovDevicePlugin") by done.
    rewrite (validateRepository_step (RdmaSharedDevicePlugin (Spec w))
               (λ x, Repository (DevicePlugin_ImageSpec x)) "rdmaSharedDevicePlugin")
      by done.
    rewrite (validateRepository_step (OFEDDriver (Spec w))
               (λ x, Repository (OFEDDriver_ImageSpec x)) "ofedDriver") by done.
    simpl. by rewrite <- !app_assoc, app_nil_r.
Qed.

Lemma repository_errors_nil (entries : list (string * string)) :
  flat_map repository_errors entries = [] ↔
  Forall (λ entry, ParseNormalizedNamed entry.2 = true) entries.
Proof.
  induction entries as [|entry entries IH]; simpl.
  - split; [constructor|done].
  - unfold repository_errors at 1.
    destruct (ParseNormalizedNamed entry.2) eqn:E; simpl.
    + rewrite IH. split; [by constructor|by inversion 1].
    + split; [done|]. inversion 1. congruence.
Qed.

Lemma repository_errors_bad (entries : list (string * string)) :
  Bad <$> flat_map repository_errors entries =
    BadString <$> (filter (λ entry, ParseNormalizedNamed entry.2 = false) entries).*2.
Proof.
  induction entries as [|entry entries IH]; [done|]. simpl.
  rewrite fmap_app, IH, filter_cons. unfold repository_errors at 1.
  case_decide as Hd.
  - by rewrite Hd.
  - by destruct (ParseNormalizedNamed entry.2).
Qed.

(** X20. [validateRepositories] keeps the errors it is given, in front and
    in order, and adds one Invalid error for each configured repository that
    does not parse, in the order of validation and with that repository as
    the offending value; it adds none exactly when every configured
    repository parses. *)
Theorem validateRepositories_spec (w : NicClusterPolicy) (allErrs : ErrorList) :
  ∃ added,
    validateRepositories w allErrs = allErrs ++ added ∧
    validateRepositories w [] = added ∧
    (added = [] ↔ Forall (λ entry, ParseNormalizedNamed entry.2 = true) (repositories w)) ∧
    Bad <$> added =
      BadString <$> (filter (λ entry, ParseNormalizedNamed entry.2 = false)
                            (repositories w)).*2 ∧
    Forall (λ e, ErrType e = ErrorTypeInvalid ∧
                 Detail e = "invalid container image repository format") added.
Proof.
  exists (flat_map repository_errors (repositories w)).
  split; [apply validateRepositories_app|].
  split; [by rewrite validateRepositories_app|].
  split; [apply repository_errors_nil|].
  split; [apply repository_errors_bad|].
  apply Forall_flat_map, Forall_forall. intros entry _.
  unfold repository_errors. destruct (ParseNormalizedNamed entry.2); by repeat constructor.
Qed.

Lemma reported_at_not_ofedDriver (component : string) :
  reported_at component ≠ ["spec"; "ofedDriver"; "repository"].
Proof.
  unfold reported_at. destruct (String.eqb component "ofedDriver") eqn:E; [done|].
  destruct (existsb (String.eqb component) _); [done|].
  intros [= ->]. by rewrite String.eqb_refl in E.
Qed.

(** X21. A repository of the OFED driver that does not parse is reported at
    [spec.nicFeatureDiscovery.repository], the field of another component;
    no error of [validateRepositories] is ever reported at
    [spec.ofedDriver.repository]. *)
Theorem validateRepositories_ofedDriver_field (w : NicClusterPolicy)
    (allErrs : ErrorList) (ofedDriver : OFEDDriverSpec) :
  OFEDDriver (Spec w) = Some ofedDriver →
  ParseNormalizedNamed (Repository (OFEDDriver_ImageSpec ofedDriver)) = false →
  Invalid ["spec"; "nicFeatureDiscovery"; "repository"]
          (BadString (Repository (OFEDDriver_ImageSpec ofedDriver)))
          "invalid container image repository format"
    ∈ validateRepositories w allErrs ∧
  ["spec"; "ofedDriver"; "repository"] ∉ Field <$> validateRepositories w [].
Proof.
  intros Hofed Hparse. rewrite !validateRepositories_app. split.
  - apply elem_of_app. right. unfold repositories. rewrite Hofed. simpl.
    unfold repository_errors at 1. simpl. rewrite Hparse. left.
  - simpl. intros (e & Heq & Hin)%list_elem_of_fmap.
    apply list_elem_of_In, in_flat_map in Hin as (entry & _ & Hin).
    unfold repository_errors in Hin.
    destruct (ParseNormalizedNamed entry.2); [done|].
    destruct Hin as [<-|[]]. simpl in Heq.
    by eapply reported_at_not_ofedDriver.
Qed.

End PolicyValidator.
End PolicyValidator.

(** ** The admission webhook: container resources *)

Module ResourceValidator.
Import Validator.
Section ResourceValidator.

(** The order in which Go iterates over a [v1.ResourceList]: any
    enumeration of its entries. *)
Variable range : gmap string Z → list (string * Z).
Hypothesis range_perm : ∀ m, range m ≡ₚ map_to_list m.

(** [v1.ResourceCPU], [v1.ResourceMemory] *)
Definition ResourceCPU : string := "cpu".
Definition ResourceMemory : string := "memory".

(** [v1alpha1.ResourceRequirements]. A [resource.Quantity] is an exact
    decimal number with at most nine decimal places; it is taken as the
    integer number of its smallest units, on which [IsZero] and [Cmp] are
    the test for zero and the comparison of integers. A nil
    [v1.ResourceList] and an empty one are both the empty map: Go reads
    them alike. *)
Record ResourceRequirements : Type := mk_ResourceRequirements {
  Name : string;
  Requests : gmap string Z;
  Limits : gmap string Z
}.

(** The body of the loop of [validateResources] (lines 612-630). *)
Definition validateResources_body (fp : Path) (child resourceType : string)
    (requests : list (gmap string Z)) (allErrs : ErrorList)
    (entry : string * Z) : ErrorList :=
  let '(resourceName, quantity) := entry in
  let allErrs :=
    if String.eqb resourceName ResourceCPU || String.eqb resourceName ResourceMemory then
      if (quantity =? 0)%Z then
        allErrs ++ [Invalid (Child (Child (Child (Child fp child) "containerResources")
                                          resourceType) resourceName)
                      (BadQuantity quantity)
                      ("resource " +:+ resourceType +:+ " for " +:+ resourceName
                         +:+ " is zero")]
      else allErrs
    else allErrs in
  if String.eqb resourceType "Limits" && negb (length requests =? 0)%nat then
    match head requests ≫= (.!! resourceName) with
    | Some requestQuantity =>
        if (quantity <? requestQuantity)%Z then
          allErrs ++ [Invalid (Child (Child (Child (Child fp child) "containerResources")
                                            "Requests") resourceName)
                        (BadQuantity quantity)
                        ("resource request for " +:+ resourceName
                           +:+ " is greater than the limit")]
        else allErrs
    | None => allErrs
    end
  else allErrs.

(** [func validateResources(resources, allErrs, fp, child, resourceType,
    requests...) field.ErrorList] *)
Definition validateResources (resources : gmap string Z) (allErrs : ErrorList)
    (fp : Path) (child resourceType : string) (requests : list (gmap string Z))
    : ErrorList :=
  fold_left (validateResources_body fp child resourceType requests)
            (range resources) allErrs.

(** The body of the loop of [validateResourceRequirements] (lines 597-605). *)
Definition validateResourceRequirements_body (supportedContainerNames : list string)
    (fp : Path) (child : string) (allErrs : ErrorList) (reqs : ResourceRequirements)
    : ErrorList :=
  let allErrs := validateResources (Requests reqs) allErrs fp child "Requests" [] in
  let allErrs := validateResources (Limits reqs) allErrs fp child "Limits" [Requests reqs] in
  if negb (existsb (String.eqb (Name reqs)) supportedContainerNames) then
    allErrs ++ [Invalid (Child (Child (Child fp child) "containerResources") "name")
                  (BadString (Name reqs))
                  ("container name " +:+ Name reqs +:+ " is unsupported for this state")]
  else allErrs.

(** [func validateResourceRequirements(resources, policy, manifestRenderer,
    allErrs, fp, child) field.ErrorList]. The container names that
    [state.ParseContainerNames] reads off the manifests of the state are
    given as [supportedContainerNames]. *)
Definition validateResourceRequirements (resources : list ResourceRequirements)
    (supportedContainerNames : list string) (allErrs : ErrorList)
    (fp : Path) (child : string) : ErrorList :=
  let allErrs :=
    if (length resources =? 0)%nat then
      allErrs ++ [Invalid (Child (Child fp child) "containerResources") BadEmptyList
                    "should not be empty if declared"]
    else allErrs in
  fold_left (validateResourceRequirements_body supportedContainerNames fp child)
            resources allErrs.

(** What the validation asks of a list of resources: an amount of cpu or
    memory is not zero and, where [requests] are given, no amount is below
    the request for the same resource. *)
Definition amounts_ok (resources : gmap string Z) (requests : option (gmap string Z))
    : Prop :=
  ∀ resourceName quantity, resources !! resourceName = Some quantity →
    ((resourceName = ResourceCPU ∨ resourceName = ResourceMemory) → quantity ≠ 0%Z) ∧
    (∀ r requestQuantity, requests = Some r → r !! resourceName = Some requestQuantity →
       (requestQuantity ≤ quantity)%Z).

(** *** Accumulation of errors *)

Lemma fold_left_app_flat_map {A B : Type} (f : list B → A → list B) (l : list A)
    (acc : list B) :
  (∀ acc x, f acc x = acc ++ f [] x) →
  fold_left f l acc = acc ++ flat_map (f []) l.
Proof.
  intros Hf. revert acc. induction l as [|x l IH]; intros acc; simpl.
  - by rewrite app_nil_r.
  - rewrite IH, (Hf acc x). by rewrite <- app_assoc.
Qed.

Lemma flat_map_nil {A B : Type} (f : A → list B) (l : list A) :
  flat_map f l = [] ↔ Forall (λ x, f x = []) l.
Proof.
  induction l as [|x l IH]; simpl.
  - split; [constructor|done].
  - split.
    + intros [Hx Hl]%app_eq_nil. constructor; [done|by apply IH].
    + inversion 1 as [|? ? Hx Hl]; subst. rewrite Hx. simpl. by apply IH.
Qed.

Lemma validateResources_body_app (fp : Path) (child resourceType : string)
    (requests : list (gmap string Z)) (allErrs : ErrorList) (entry : string * Z) :
  validateResources_body fp child resourceType requests allErrs entry =
    allErrs ++ validateResources_body fp child resourceType requests [] entry.
Proof.
  unfold validateResources_body. destruct entry as [resourceName quantity].
  destruct (String.eqb resourceName ResourceCPU || String.eqb resourceName ResourceMemory),
    (quantity =? 0)%Z,
    (String.eqb resourceType "Limits" && negb (length requests =? 0)%nat),
    (head requests ≫= (.!! resourceName)) as [requestQuantity|];
    try destruct (quantity <? requestQuantity)%Z;
    simpl; rewrite ?app_nil_r, <- ?app_assoc; reflexivity.
Qed.

Lemma validateResources_app (resources : gmap string Z) (allErrs : ErrorList)
    (fp : Path) (child resourceType : string) (requests : list (gmap string Z)) :
  validateResources resources allErrs fp child resourceType requests =
    allErrs ++ validateResources resources [] fp child resourceType requests.
Proof.
  unfold validateResources.
  rewrite !(fold_left_app_flat_map _ _ _ (validateResources_body_app _ _ _ _)).
  done.
Qed.

Lemma zero_amount_nil (resourceName : string) (quantity : Z) (e : Error) :
  (if String.eqb resourceName ResourceCPU || String.eqb resourceName ResourceMemory
   then if (quantity =? 0)%Z then [e] else [] else []) = [] ↔
  ((resourceName = ResourceCPU ∨ resourceName = ResourceMemory) → quantity ≠ 0%Z).
Proof.
  rewrite <- !String.eqb_eq, <- orb_true_iff.
  destruct (String.eqb resourceName ResourceCPU || String.eqb resourceName ResourceMemory).
  - destruct (quantity =? 0)%Z eqn:Hz.
    + apply Z.eqb_eq in Hz. split; [done|]. intros H. by specialize (H eq_refl).
    + apply Z.eqb_neq in Hz. done.
  - split; [|done]. by intros _ ?.
Qed.

Lemma limit_below_request_nil (resourceType resourceName : string)
    (requests : list (gmap string Z)) (quantity : Z) (e : Error) :
  (if String.eqb resourceType "Limits" && negb (length requests =? 0)%nat
   then match head requests ≫= (.!! resourceName) with
        | Some requestQuantity => if (quantity <? requestQuantity)%Z then [e] else []
        | None => []
        end
   else []) = [] ↔
  (∀ r requestQuantity,
     (if String.eqb resourceType "Limits" then head requests else None) = Some r →
     r !! resourceName = Some requestQuantity → (requestQuantity ≤ quantity)%Z).
Proof.
  destruct (String.eqb resourceType "Limits"); simpl; [|by split].
  destruct requests as [|r0 requests]; simpl; [by split|].
  destruct (r0 !! resourceName) as [requestQuantity|] eqn:Hr0.
  - destruct (quantity <? requestQuantity)%Z eqn:Hlt.
    + apply Z.ltb_lt in Hlt. split; [done|]. intros H.
      specialize (H r0 requestQuantity eq_refl Hr0). lia.
    + apply Z.ltb_ge in Hlt. split; [|done]. intros _ r rq [= <-] Hr.
      rewrite Hr0 in Hr. injection Hr as <-. done.
  - split; [|done]. intros _ r rq [= <-] Hr. congruence.
Qed.

Lemma validateResources_body_nil (fp : Path) (child resourceType : string)
    (requests : list (gmap string Z)) (resourceName : string) (quantity : Z) :
  validateResources_body fp child resourceType requests [] (resourceName, quantity) = [] ↔
  ((resourceName = ResourceCPU ∨ resourceName = ResourceMemory) → quantity ≠ 0%Z) ∧
  (∀ r requestQuantity,
     (if String.eqb resourceType "Limits" then head requests else None) = Some r →
     r !! resourceName = Some requestQuantity → (requestQuantity ≤ quantity)%Z).
Proof.
  rewrite <- (zero_amount_nil resourceName quantity
    (Invalid (Child (Child (Child (Child fp child) "containerResources")
                           resourceType) resourceName)
       (BadQuantity quantity)
       ("resource " +:+ resourceType +:+ " for " +:+ resourceName +:+ " is zero"))).
  rewrite <- (limit_below_request_nil resourceType resourceName requests quantity
    (Invalid (Child (Child (Child (Child fp child) "containerResources")
                           "Requests") resourceName)
       (BadQuantity quantity)
       ("resource request for " +:+ resourceName +:+ " is greater than the limit"))).
  unfold validateResources_body.
  destruct (String.eqb resourceName ResourceCPU || String.eqb resourceName ResourceMemory),
    (quantity =? 0)%Z,
    (String.eqb resourceType "Limits" && negb (length requests =? 0)%nat),
    (head requests ≫= (.!! resourceName)) as [requestQuantity|];
    try destruct (quantity <? requestQuantity)%Z; simpl; split; try done;
    by intros [? ?].
Qed.

Lemma length_flat_map_le {A B : Type} (f : A → list B) (l : list A) (n : nat) :
  (∀ x, length (f x) ≤ n) → length (flat_map f l) ≤ n * length l.
Proof.
  intros Hf. induction l as [|x l IH]; simpl; [lia|].
  rewrite length_app. specialize (Hf x). lia.
Qed.

Lemma validateResources_nil (resources : gmap string Z)
    (fp : Path) (child resourceType : string) (requests : list (gmap string Z)) :
  validateResources resources [] fp child resourceType requests = [] ↔
  amounts_ok resources (if String.eqb resourceType "Limits" then head requests else None).
Proof using range_perm.
  unfold validateResources.
  rewrite (fold_left_app_flat_map _ _ _ (validateResources_body_app _ _ _ _)).
  cbn [app]. etrans; [apply flat_map_nil|].
  rewrite (range_perm resources), Forall_forall. unfold amounts_ok.
  split.
  - intros H resourceName quantity Hlook.
    apply (validateResources_body_nil fp child resourceType requests).
    apply H. by apply elem_of_map_to_list.
  - intros H [resourceName quantity] Hin%elem_of_map_to_list.
    apply validateResources_body_nil. by apply H.
Qed.

(** X22. [validateResources] keeps the errors it is given, in front and in
    order, and adds Invalid errors only, at most two for each resource.
    Whatever the iteration order of the map, it adds none exactly when no
    amount of cpu or memory is zero and, for the limits checked against
    requests, no limit is below the request of the same resource. *)
Theorem validateResources_spec (resources : gmap string Z) (allErrs : ErrorList)
    (fp : Path) (child resourceType : string) (requests : list (gmap string Z)) :
  ∃ added,
    validateResources resources allErrs fp child resourceType requests = allErrs ++ added ∧
    Forall (λ e, ErrType e = ErrorTypeInvalid) added ∧
    length added ≤ 2 * size resources ∧
    (added = [] ↔
     amounts_ok resources (if String.eqb resourceType "Limits" then head requests else None)).
Proof using range_perm.
  exists (validateResources resources [] fp child resourceType requests).
  split; [apply validateResources_app|].
  split; [|split]; [| |apply validateResources_nil].
  all: unfold validateResources;
    rewrite (fold_left_app_flat_map _ _ _ (validateResources_body_app _ _ _ _));
    cbn [app].
  - apply Forall_flat_map, Forall_forall. intros [resourceName quantity] _.
    unfold validateResources_body.
    destruct (String.eqb resourceName ResourceCPU || String.eqb resourceName ResourceMemory),
      (quantity =? 0)%Z,
      (String.eqb resourceType "Limits" && negb (length requests =? 0)%nat),
      (head requests ≫= (.!! resourceName)) as [requestQuantity|];
      try destruct (quantity <? requestQuantity)%Z; simpl; by repeat constructor.
  - rewrite <- length_map_to_list, <- (range_perm resources).
    rewrite (Nat.mul_comm 2). etrans; [apply (length_flat_map_le _ _ 2)|lia].
    intros [resourceName quantity].
    unfold validateResources_body.
    destruct (String.eqb resourceName ResourceCPU || String.eqb resourceName ResourceMemory),
      (quantity =? 0)%Z,
      (String.eqb resourceType "Limits" && negb (length requests =? 0)%nat),
      (head requests ≫= (.!! resourceName)) as [requestQuantity|];
      try destruct (quantity <? requestQuantity)%Z; simpl; lia.
Qed.

Lemma validateResourceRequirements_body_app (supportedContainerNames : list string)
    (fp : Path) (child : string) (allErrs : ErrorList) (reqs : ResourceRequirements) :
  validateResourceRequirements_body supportedContainerNames fp child allErrs reqs =
    allErrs ++ validateResourceRequirements_body supportedContainerNames fp child [] reqs.
Proof.
  unfold validateResourceRequirements_body. cbv zeta.
  rewrite (validateResources_app (Limits reqs)
             (validateResources (Requests reqs) allErrs fp child "Requests" [])).
  rewrite (validateResources_app (Requests reqs) allErrs).
  rewrite (validateResources_app (Limits reqs)
             (validateResources (Requests reqs) [] fp child "Requests" [])).
  destruct (negb (existsb (String.eqb (Name reqs)) supportedContainerNames));
    by rewrite <- ?app_assoc.
Qed.

(** X23. [validateResourceRequirements] keeps the errors it is given, in
    front and in order. It adds none exactly when the declared list is not
    empty and, for each of its entries, the container name is one the state
    supports, no requested or limiting amount of cpu or memory is zero, and
    no limit is below the request of the same resource. *)
Theorem validateResourceRequirements_spec (resources : list ResourceRequirements)
    (supportedContainerNames : list string) (allErrs : ErrorList)
    (fp : Path) (child : string) :
  ∃ added,
    validateResourceRequirements resources supportedContainerNames allErrs fp child
      = allErrs ++ added ∧
    (added = [] ↔
     resources ≠ [] ∧
     Forall (λ reqs, Name reqs ∈ supportedContainerNames ∧
                     amounts_ok (Requests reqs) None ∧
                     amounts_ok (Limits reqs) (Some (Requests reqs))) resources).
Proof using range_perm.
  unfold validateResourceRequirements. cbv zeta.
  rewrite (fold_left_app_flat_map _ _ _ (validateResourceRequirements_body_app _ _ _)).
  destruct resources as [|reqs0 resources].
  - simpl. eexists. rewrite app_nil_r. split; [reflexivity|].
    split; [done|]. by intros [? _].
  - change (length (reqs0 :: resources) =? 0)%nat with false. cbv iota.
    eexists. split; [reflexivity|].
    etrans; [apply flat_map_nil|]. split.
    + intros Hall. split; [done|]. eapply Forall_impl; [exact Hall|].
      intros reqs. unfold validateResourceRequirements_body. cbv zeta.
      rewrite (validateResources_app (Limits reqs)).
      pose proof (validateResources_nil (Requests reqs) fp child "Requests" []) as Hnil1.
      pose proof (validateResources_nil (Limits reqs) fp child "Limits" [Requests reqs])
        as Hnil2.
      simpl in Hnil1, Hnil2.
      set (a1 := validateResources (Requests reqs) [] fp child "Requests" []) in *.
      set (a2 := validateResources (Limits reqs) [] fp child "Limits" [Requests reqs]) in *.
      destruct (existsb (String.eqb (Name reqs)) supportedContainerNames) eqn:Hsup; simpl.
      * intros [H1 H2]%app_eq_nil.
        split; [|split; [by apply Hnil1|by apply Hnil2]].
        apply existsb_exists in Hsup as (x & Hin & ->%String.eqb_eq).
        by apply list_elem_of_In.
      * intros [_ ?]%app_eq_nil. done.
    + intros [_ Hall]. eapply Forall_impl; [exact Hall|].
      intros reqs (Hname & Hreq & Hlim).
      unfold validateResourceRequirements_body. cbv zeta.
      rewrite (validateResources_app (Limits reqs)).
      pose proof (validateResources_nil (Requests reqs) fp child "Requests" []) as Hnil1.
      pose proof (validateResources_nil (Limits reqs) fp child "Limits" [Requests reqs])
        as Hnil2.
      simpl in Hnil1, Hnil2.
      set (a1 := validateResources (Requests reqs) [] fp child "Requests" []) in *.
      set (a2 := validateResources (Limits reqs) [] fp child "Limits" [Requests reqs]) in *.
      apply Hnil1 in Hreq. apply Hnil2 in Hlim. rewrite Hreq, Hlim.
      assert (existsb (String.eqb (Name reqs)) supportedContainerNames = true) as ->; [|done].
      apply existsb_exists. exists (Name reqs). split; [by apply list_elem_of_In|].
      apply String.eqb_refl.
Qed.

End ResourceValidator.
End ResourceValidator.

(** ** The drain manager ([pkg/upgrade/drain_manager.go]) *)

Module Drain.
Section Drain.

(** The set of draining nodes is shared with the goroutines the manager
    starts, which take their node out of it when they end. It is part of
    the [World]; what the goroutines do between two calls of the manager is
    part of what those calls do to the world. *)
Context {World : Type}.

(** [v1alpha1.DrainSpec]; [TimeoutSecond] is an integer. *)
Record DrainSpec : Type := mk_DrainSpec {
  Enable : bool;
  Force : bool;
  PodSelector : string;
  TimeoutSecond : Z;
  DeleteEmptyDir : bool
}.

(** [corev1.Node], by its name. *)
Record Node : Type := mk_Node { Name : string }.

Record DrainConfiguration : Type := mk_DrainConfiguration {
  Spec : option DrainSpec;
  Nodes : list Node
}.

(** [drain.Helper], as far as the manager fills it; [Timeout] is a
    [time.Duration], a number of nanoseconds. *)
Record Helper : Type := mk_Helper {
  Helper_Force : bool;
  IgnoreAllDaemonSets : bool;
  DeleteEmptyDirData : bool;
  GracePeriodSeconds : Z;
  Timeout : Z;
  Helper_PodSelector : string
}.

(** [DrainManagerImpl]: the operations on the [StringSet] of draining nodes,
    whose code is not in the sources at hand, and the start of a goroutine
    with the function literal of lines 101-120. [go_drain] is given the node
    of the iteration that starts the goroutine. The function literal reads
    the loop variable: where Go keeps one variable for the whole loop, a
    goroutine that runs late reads the node of a later iteration; which node
    it drains in the end is part of what it does to the world. *)
Record DrainManagerImpl : Type := mk_DrainManagerImpl {
  drainingNodes_Has : string → World → bool * World;
  drainingNodes_Add : string → World → unit * World;
  go_drain : Node → Helper → World → unit * World
}.

Inductive Call : Type :=
| CallHas (name : string) (ret : bool)
| CallAdd (name : string)
| CallGo (node : Node) (drainHelper : Helper).

(** The body of the loop over the nodes (lines 96-124). *)
Definition ScheduleNodesDrain_body (m : DrainManagerImpl) (drainHelper : Helper)
    (node : Node) : Eff World Call unit :=
  has ← call (CallHas (Name node)) (drainingNodes_Has m (Name node));
  if negb has then
    _ ← call (λ _, CallAdd (Name node)) (drainingNodes_Add m (Name node));
    call (λ _, CallGo node drainHelper) (go_drain m node drainHelper)
  else mret ().

Fixpoint ScheduleNodesDrain_loop (m : DrainManagerImpl) (drainHelper : Helper)
    (nodes : list Node) : Eff World Call unit :=
  match nodes with
  | [] => mret ()
  | node :: rest =>
      _ ← ScheduleNodesDrain_body m drainHelper node;
      ScheduleNodesDrain_loop m drainHelper rest
  end.

(** The [drain.Helper] of lines 75-94. *)
Definition drainHelper_of (drainSpec : DrainSpec) : Helper :=
  mk_Helper (Force drainSpec) true (DeleteEmptyDir drainSpec) (-1)
            (TimeoutSecond drainSpec) (PodSelector drainSpec).

(** [func (m *DrainManagerImpl) ScheduleNodesDrain(ctx, drainConfig) error] *)
Definition ScheduleNodesDrain (m : DrainManagerImpl) (drainConfig : DrainConfiguration)
    : Eff World Call (option error) :=
  if (length (Nodes drainConfig) =? 0)%nat then mret None
  else
    match Spec drainConfig with
    | None => mret (Some (errors_New "drain spec should not be empty"))
    | Some drainSpec =>
        if negb (Enable drainSpec) then mret None
        else
          _ ← ScheduleNodesDrain_loop m (drainHelper_of drainSpec) (Nodes drainConfig);
          mret None
    end.

(** The names asked of the set of draining nodes, and the nodes a goroutine
    was started for, in a record of calls. *)
Definition asked (calls : list Call) : list string :=
  omap (λ c, match c with CallHas name _ => Some name | _ => None end) calls.
Definition started (calls : list Call) : list Node :=
  omap (λ c, match c with CallGo node _ => Some node | _ => None end) calls.

(** *** Scheduling *)

Lemma ScheduleNodesDrain_loop_calls (m : DrainManagerImpl) (drainHelper : Helper)
    (nodes : list Node) (w : World) :
  let calls := calls_of (ScheduleNodesDrain_loop m drainHelper nodes w) in
  asked calls = Name <$> nodes ∧
  started calls `sublist_of` nodes ∧
  (∀ node h, CallGo node h ∈ calls →
     CallHas (Name node) false ∈ calls ∧ CallAdd (Name node) ∈ calls ∧ h = drainHelper).
Proof.
  revert w. induction nodes as [|node rest IH]; intros w.
  - simpl. split; [done|]. split; [done|]. by intros ? ? ?%elem_of_nil.
  - cbn [ScheduleNodesDrain_loop].
    unfold mbind, Eff_bind, eff_bind, ScheduleNodesDrain_body, call, calls_of.
    unfold mbind, Eff_bind, eff_bind, mret, Eff_ret, eff_ret.
    destruct (drainingNodes_Has m (Name node) w) as [has w1]. destruct has; simpl.
    + specialize (IH w1). cbv zeta in IH. unfold calls_of in IH.
      destruct (ScheduleNodesDrain_loop m drainHelper rest w1) as [[u w2] calls].
      simpl in *. destruct IH as (Hasked & Hstarted & Hgo).
      split; [by rewrite Hasked|]. split; [by apply sublist_cons|].
      intros n h [?|Hin]%elem_of_cons; [done|].
      destruct (Hgo n h Hin) as (H1 & H2 & H3). by repeat split; try right.
    + destruct (drainingNodes_Add m (Name node) w1) as [u1 w2].
      destruct (go_drain m node drainHelper w2) as [u2 w3]. simpl.
      specialize (IH w3). cbv zeta in IH. unfold calls_of in IH.
      destruct (ScheduleNodesDrain_loop m drainHelper rest w3) as [[u w4] calls].
      simpl in *. destruct IH as (Hasked & Hstarted & Hgo).
      split; [by rewrite Hasked|]. split; [by apply sublist_skip|].
      intros n h Hin.
      apply elem_of_cons in Hin as [?|Hin]; [done|].
      apply elem_of_cons in Hin as [?|Hin]; [done|].
      apply elem_of_cons in Hin as [[= -> ->]|Hin].
      * split; [left|]. split; [right; left|done].
      * destruct (Hgo n h Hin) as (H1 & H2 & H3).
        split; [by do 3 right|]. split; [by do 3 right|done].
Qed.

(** X24. [ScheduleNodesDrain] returns an error in one case only: some node
    is to be drained and the drain spec is nil. With no node (be the spec
    nil or not), with a nil spec, or with drain disabled, it asks nothing of
    the set of draining nodes, starts nothing, and leaves the world as it
    was. *)
Theorem ScheduleNodesDrain_guard (m : DrainManagerImpl)
    (drainConfig : DrainConfiguration) (w : World) :
  let run := ScheduleNodesDrain m drainConfig w in
  (is_Some (result_of run) ↔ Nodes drainConfig ≠ [] ∧ Spec drainConfig = None) ∧
  (Nodes drainConfig = [] ∨ Spec drainConfig = None ∨
   (∃ drainSpec, Spec drainConfig = Some drainSpec ∧ Enable drainSpec = false) →
   calls_of run = [] ∧ world_of run = w).
Proof.
  cbv zeta. unfold ScheduleNodesDrain.
  destruct (Nodes drainConfig) as [|node rest] eqn:Hnodes; simpl.
  { split; [|done]. split; [by intros [? ?]|by intros [? _]]. }
  destruct (Spec drainConfig) as [drainSpec|] eqn:Hspec; simpl.
  - destruct (Enable drainSpec) eqn:Hen; simpl.
    + unfold mbind, Eff_bind, eff_bind, result_of.
      destruct (ScheduleNodesDrain_body m (drainHelper_of drainSpec) node w)
        as [[u1 w1] c1].
      destruct (ScheduleNodesDrain_loop m (drainHelper_of drainSpec) rest w1)
        as [[u2 w2] c2]. simpl.
      split; [split; [by intros [? ?]|by intros [_ ?]]|].
      intros [?|[?|(ds & [= <-] & ?)]]; congruence.
    + split; [|done]. split; [by intros [? ?]|by intros [_ ?]].
  - split; [|done]. split; [done|]. intros _. by eexists.
Qed.

(** X25. With a drain spec that enables drain, [ScheduleNodesDrain] returns
    no error and asks the set of draining nodes about every node, once and
    in order. A goroutine is started only in the iteration of a node that
    the set answered not to hold and that was added to the set, and always
    with the same helper: DaemonSets ignored, the grace period left to the
    pods ([-1]), and a timeout of [TimeoutSecond] nanoseconds. *)
Theorem ScheduleNodesDrain_schedule (m : DrainManagerImpl)
    (drainConfig : DrainConfiguration) (w : World) (drainSpec : DrainSpec) :
  Spec drainConfig = Some drainSpec →
  Enable drainSpec = true →
  let run := ScheduleNodesDrain m drainConfig w in
  result_of run = None ∧
  asked (calls_of run) = Name <$> Nodes drainConfig ∧
  started (calls_of run) `sublist_of` Nodes drainConfig ∧
  (∀ node h, CallGo node h ∈ calls_of run →
     CallHas (Name node) false ∈ calls_of run ∧
     CallAdd (Name node) ∈ calls_of run ∧
     IgnoreAllDaemonSets h = true ∧
     GracePeriodSeconds h = (-1)%Z ∧
     Timeout h = TimeoutSecond drainSpec ∧
     Helper_Force h = Force drainSpec ∧
     DeleteEmptyDirData h = DeleteEmptyDir drainSpec ∧
     Helper_PodSelector h = PodSelector drainSpec).
Proof.
  intros Hspec Hen. cbv zeta. unfold ScheduleNodesDrain. rewrite Hspec, Hen.
  destruct (Nodes drainConfig) as [|node rest] eqn:Hnodes; simpl.
  { split; [done|]. split; [done|]. split; [done|]. by intros ? ? ?%elem_of_nil. }
  pose proof (ScheduleNodesDrain_loop_calls m (drainHelper_of drainSpec) (node :: rest) w)
    as Hloop.
  cbv zeta in Hloop. cbn [ScheduleNodesDrain_loop] in Hloop.
  unfold mbind, Eff_bind, eff_bind, result_of, calls_of in *.
  destruct (ScheduleNodesDrain_body m (drainHelper_of drainSpec) node w)
    as [[u1 w1] c1].
  destruct (ScheduleNodesDrain_loop m (drainHelper_of drainSpec) rest w1)
    as [[u2 w2] c2]. simpl in *.
  rewrite app_nil_r. destruct Hloop as (Hasked & Hstarted & Hgo).
  split; [done|]. split; [done|]. split; [done|].
  intros n h Hin. destruct (Hgo n h Hin) as (H1 & H2 & ->). done.
Qed.

End Drain.
End Drain.

(** ** The engine at work *)

Module Examples.

(** *** A manager of three states *)

(** The cluster is the list of the names of the states synced so far. *)
Definition reporting (name : string) (status : SyncState) (err : option error)
    (watch : gmap string source_Kind)
    : Manager.State (CustomResource := unit) (InfoCatalog := unit)
                    (World := list string) :=
  Manager.mk_State name "" (λ _ _ w, ((status, err), w ++ [name])) watch.

Definition shared_config := reporting "shared-config" SyncStateReady None
  {[ "ConfigMap" := mk_source_Kind "v1.ConfigMap" ]}.
Definition cni_plugins := reporting "cni-plugins" SyncStateError
  (Some (errors_New "boom"))
  {[ "DaemonSet" := mk_source_Kind "appsv1.DaemonSet" ]}.
Definition multus := reporting "multus" SyncStateNotReady None
  {[ "DaemonSet" := mk_source_Kind "extensionsv1beta1.DaemonSet";
     "ConfigMap" := mk_source_Kind "v1.ConfigMap" ]}.

Definition three_states : Manager.stateManager :=
  Manager.mk_stateManager [shared_config; cni_plugins; multus].

(** A state whose [Sync] returns a status that is none of the three
    constants: it asks to be left out of the verdict. *)
Definition ignored := reporting "ignored" (SyncStateOther "ignore") None ∅.

(** *** A CNI-plugins state on a small cluster *)

(** The cluster is the list of the names of the objects that are live. The
    skeleton renders one DaemonSet, creates what is missing, deletes what it
    is not given, and finds every live object converged. *)
Definition skel : CNIPlugins.stateSkel (ImageSpec := string) (Toleration := unit)
    (NodeAffinity := unit) (Provider := string) (Unstructured := string)
    (World := list string) :=
  CNIPlugins.mk_stateSkel
    CNIPlugins.stateCNIPluginsName CNIPlugins.stateCNIPluginsDescription
    (λ data w, ((["cni-plugins-ds"], None), w))
    (λ w, ((if bool_decide (w = []) then SyncStateReady else SyncStateNotReady, None), []))
    (λ setRef objs w, (None, objs ++ w))
    (λ objs w, ((bool_decide (filter (.∉ objs) w ≠ []), None), filter (.∈ objs) w))
    (λ objs w, ((SyncStateReady, None), w))
    (λ cr obj w, (None, w))
    "nvidia-network-operator"
    (λ staticConfig, staticConfig).

(** The same skeleton over an empty manifest directory. *)
Definition skel_no_manifests :=
  CNIPlugins.mk_stateSkel
    (CNIPlugins.name skel) (CNIPlugins.description skel)
    (λ data w, (([], None), w))
    (CNIPlugins.handleStateObjectsDeletion skel)
    (CNIPlugins.createOrUpdateObjs skel)
    (CNIPlugins.handleStaleStateObjects skel)
    (CNIPlugins.getSyncState skel)
    (CNIPlugins.SetControllerReference skel)
    (CNIPlugins.NetworkOperatorResourceNamespace skel)
    (CNIPlugins.GetCniBinDirectory skel).

Definition policy (secondaryNetwork : option CNIPlugins.SecondaryNetworkSpec)
    : CNIPlugins.NicClusterPolicy (ImageSpec := string) (Toleration := unit)
                                  (NodeAffinity := unit) :=
  CNIPlugins.mk_NicClusterPolicy "nic-cluster-policy" ""
    (CNIPlugins.mk_NicClusterPolicySpec secondaryNetwork [] None).

Definition policy_enabled :=
  policy (Some (CNIPlugins.mk_SecondaryNetworkSpec (Some "ghcr.io/plugins"))).
Definition policy_no_cni_plugins :=
  policy (Some (CNIPlugins.mk_SecondaryNetworkSpec None)).
Definition policy_no_secondary_network := policy None.

Definition catalog : CNIPlugins.InfoCatalog (Provider := string) :=
  CNIPlugins.mk_InfoCatalog (Some "/opt/cni/bin").
Definition empty_catalog : CNIPlugins.InfoCatalog (Provider := string) :=
  CNIPlugins.mk_InfoCatalog None.

(** *** A manifest directory *)

(** Documents are their own rendering unless they refer to the field [Qux];
    the YAML decoder refuses the text [":::"]. *)
Definition manifests (path : string) : option string :=
  if String.eqb path "a.yaml" then Some "kind: TestObj1"
  else if String.eqb path "b.json" then Some "{kind: TestObj2}"
  else if String.eqb path "c.yml" then Some "kind: TestObj3"
  else if String.eqb path "bad.yaml" then Some ":::"
  else if String.eqb path "invalid.yaml" then Some "name: {{.Qux}}"
  else None.

Definition engine (text : string) (data : unit) : option string :=
  if String.eqb text "name: {{.Qux}}" then None else Some text.

Definition yaml (text : string) : option string :=
  if String.eqb text ":::" then None else Some text.

Definition json (text : string) : option string := Some text.

Definition render (paths : list string) : list string * option Render.RenderError :=
  Render.RenderObjects manifests engine yaml json (Render.NewRenderer paths) ().

(** *** Another iteration order *)

(** Go maps read from their last entry to their first. *)
Definition backwards {V : Type} (m : gmap string V) : list (string * V) :=
  reverse (map_to_list m).

(** *** A cluster that refuses the writes *)

Definition skel_conflict :=
  CNIPlugins.mk_stateSkel
    (CNIPlugins.name skel) (CNIPlugins.description skel)
    (CNIPlugins.RenderObjects skel)
    (CNIPlugins.handleStateObjectsDeletion skel)
    (λ setRef objs w, (Some (errors_New "conflict"), w))
    (CNIPlugins.handleStaleStateObjects skel)
    (CNIPlugins.getSyncState skel)
    (CNIPlugins.SetControllerReference skel)
    (CNIPlugins.NetworkOperatorResourceNamespace skel)
    (CNIPlugins.GetCniBinDirectory skel).

Definition render_data :=
  CNIPlugins.mk_CNIPluginsManifestRenderData (Toleration := unit) (NodeAffinity := unit)
    (Some "ghcr.io/plugins") [] None
    (CNIPlugins.mk_cniRuntimeSpec "nvidia-network-operator" "/opt/cni/bin").

(** *** A pool of GUIDs *)

Definition guid_start : string := "02:00:00:00:00:00:00:00".
Definition guid_middle : string := "02:00:00:00:00:00:0a:00".
Definition guid_end : string := "02:FF:FF:FF:FF:FF:FF:FF".

(** *** A policy with an OFED driver *)

(** A parser of repositories that refuses the empty text only. *)
Definition parses (repo : string) : bool := negb (String.eqb repo "").

Definition ofed_driver : Validator.OFEDDriverSpec :=
  Validator.mk_OFEDDriverSpec (Validator.mk_ImageSpec "") "23.10-0.5.5.0" None.

Definition ofed_policy : PolicyValidator.NicClusterPolicy :=
  PolicyValidator.mk_NicClusterPolicy "nic-cluster-policy"
    (PolicyValidator.mk_NicClusterPolicySpec (Some ofed_driver)
       None None None None None None).

(** *** Container resources *)

(** Amounts in thousandths: 100m of cpu and 64 of memory requested, the
    limit of cpu below the request and no memory at all as a limit. *)
Definition container_requests : gmap string Z :=
  {[ "cpu" := 100%Z; "memory" := 64000%Z ]}.
Definition container_limits : gmap string Z :=
  {[ "cpu" := 50%Z; "memory" := 0%Z ]}.

Definition container_resources : list ResourceValidator.ResourceRequirements :=
  [ResourceValidator.mk_ResourceRequirements "mofed-container"
     container_requests container_limits].

(** *** A drain manager *)

(** The world is the set of draining nodes, as the list of their names; the
    goroutines have not come to their end yet. *)
Definition drain_manager : Drain.DrainManagerImpl (World := list string) :=
  Drain.mk_DrainManagerImpl
    (λ name w, (bool_decide (name ∈ w), w))
    (λ name w, ((), name :: w))
    (λ node drainHelper w, ((), w)).

Definition drain_spec : Drain.DrainSpec := Drain.mk_DrainSpec true false "" 300 true.

Definition drain_config : Drain.DrainConfiguration :=
  Drain.mk_DrainConfiguration (Some drain_spec)
    [Drain.mk_Node "node-a"; Drain.mk_Node "node-b"; Drain.mk_Node "node-a"].

(** *** The runs *)

Example three_states_results :
  Manager.stateManager_SyncState three_states () () [] =
    (Results.mk SyncStateNotReady
       [ Result.mk "shared-config" SyncStateReady None;
         Result.mk "cni-plugins" SyncStateError (Some (errors_New "boom"));
         Result.mk "multus" SyncStateNotReady None ],
     ["shared-config"; "cni-plugins"; "multus"],
     [shared_config; cni_plugins; multus]).
Proof. reflexivity. Qed.

Example all_ready_results :
  result_of (Manager.stateManager_SyncState
               (Manager.mk_stateManager [shared_config; shared_config]) () () []) =
    Results.mk SyncStateReady
      [ Result.mk "shared-config" SyncStateReady None;
        Result.mk "shared-config" SyncStateReady None ].
Proof. reflexivity. Qed.

Example ignored_results :
  result_of (Manager.stateManager_SyncState
               (Manager.mk_stateManager [shared_config; ignored]) () () []) =
    Results.mk SyncStateReady
      [ Result.mk "shared-config" SyncStateReady None;
        Result.mk "ignored" (SyncStateOther "ignore") None ].
Proof. reflexivity. Qed.

(** The aggregate status is ready, and not every state returned ready. *)
Lemma ready_though_a_state_is_not :
  Results.Status (result_of (Manager.stateManager_SyncState
                               (Manager.mk_stateManager [shared_config; ignored]) () () []))
    = SyncStateReady ∧
  ¬ Forall (λ r, Result.Status r = SyncStateReady)
           (Manager.sync_outcomes () () [shared_config; ignored] []).1.
Proof.
  split; [reflexivity|].
  intros Hall. apply Forall_cons in Hall as [_ Hall].
  apply Forall_cons in Hall as [Hignored _]. discriminate Hignored.
Qed.

Example three_states_watch_sources :
  Manager.stateManager_GetWatchSources map_to_list three_states =
    ([mk_source_Kind "v1.ConfigMap"; mk_source_Kind "appsv1.DaemonSet"],
     ["ConfigMap"; "DaemonSet"]).
Proof. vm_compute. reflexivity. Qed.

(** The watch sources of [three_states]: [multus] declares [DaemonSet] with
    another descriptor, and the one of [cni_plugins], earlier in the order,
    is returned. *)
Lemma three_states_watch_sources_first_wins :
  NoDup (Manager.stateManager_GetWatchSources map_to_list three_states).2 ∧
  (∀ kind',
     ("DaemonSet", kind')
       ∈ zip (Manager.stateManager_GetWatchSources map_to_list three_states).2
             (Manager.stateManager_GetWatchSources map_to_list three_states).1 →
     kind' = mk_source_Kind "appsv1.DaemonSet").
Proof.
  pose proof (Manager.GetWatchSources_dedup_first_declaration_wins
                map_to_list (λ m, reflexivity (map_to_list m)) three_states)
    as (_ & Hnodup & _ & _ & Hfirst).
  split; [exact Hnodup|].
  apply (Hfirst [shared_config] cni_plugins [multus]).
  - reflexivity.
  - intros s' Hs'. apply list_elem_of_singleton in Hs' as ->. reflexivity.
  - reflexivity.
Defined.

Example sync_converged :
  result_of (CNIPlugins.stateCNIPlugins_Sync skel policy_enabled catalog []) =
    (SyncStateReady, None).
Proof. vm_compute. reflexivity. Qed.

(** A stale object is still live after the delete call: not ready, and the
    status of the desired objects is not looked at. *)
Lemma sync_pending_deletions :
  CNIPlugins.CallHandleStaleStateObjects ["cni-plugins-ds"] (true, None)
    ∈ calls_of (CNIPlugins.stateCNIPlugins_Sync skel policy_enabled catalog ["old-ds"]) ∧
  result_of (CNIPlugins.stateCNIPlugins_Sync skel policy_enabled catalog ["old-ds"]) =
    (SyncStateNotReady, None).
Proof.
  assert (CNIPlugins.CallHandleStaleStateObjects ["cni-plugins-ds"] (true, None)
            ∈ calls_of (CNIPlugins.stateCNIPlugins_Sync skel policy_enabled catalog
                          ["old-ds"])) as Hin
    by (vm_compute; repeat constructor).
  split; [exact Hin|].
  exact (proj1 (proj2 (CNIPlugins.Sync_pending_deletions_not_ready
                         skel policy_enabled catalog ["old-ds"]
                         ["cni-plugins-ds"] None Hin)) eq_refl).
Defined.

(** The sub-system is taken out of the custom resource while an object of it
    is live: the one call is the deletion, and its status is reported. *)
Lemma sync_disabled :
  result_of (CNIPlugins.stateCNIPlugins_Sync skel policy_no_cni_plugins catalog
               ["cni-plugins-ds"]) = (SyncStateNotReady, None) ∧
  calls_of (CNIPlugins.stateCNIPlugins_Sync skel policy_no_cni_plugins catalog
              ["cni-plugins-ds"]) =
    [CNIPlugins.CallHandleStateObjectsDeletion (SyncStateNotReady, None)].
Proof.
  pose proof (CNIPlugins.Sync_disabled_only_deletes
                skel policy_no_cni_plugins catalog ["cni-plugins-ds"]
                (or_intror (ex_intro _ (CNIPlugins.mk_SecondaryNetworkSpec None)
                                     (conj eq_refl eq_refl))))
    as (Hres & _ & Hcalls & _).
  split; [exact Hres | exact Hcalls].
Defined.

Example sync_disabled_no_secondary_network :
  CNIPlugins.stateCNIPlugins_Sync skel policy_no_secondary_network catalog [] =
    ((SyncStateReady, None), [],
     [CNIPlugins.CallHandleStateObjectsDeletion (SyncStateReady, None)]).
Proof. vm_compute. reflexivity. Qed.

(** Nothing is rendered from an empty manifest directory: not ready, no error. *)
Lemma sync_empty_desired_set :
  result_of (CNIPlugins.stateCNIPlugins_Sync skel_no_manifests policy_enabled catalog []) =
    (SyncStateNotReady, None).
Proof.
  refine (proj1 (CNIPlugins.Sync_empty_desired_set_not_ready
                   skel_no_manifests policy_enabled catalog []
                   (CNIPlugins.mk_CNIPluginsManifestRenderData
                      (Some "ghcr.io/plugins") [] None
                      (CNIPlugins.mk_cniRuntimeSpec "nvidia-network-operator"
                                                    "/opt/cni/bin")) _)).
  vm_compute. repeat constructor.
Defined.

(** The catalog has no static config provider: an error, and nothing done. *)
Lemma sync_no_static_config_provider :
  calls_of (CNIPlugins.stateCNIPlugins_Sync skel policy_enabled empty_catalog ["old-ds"]) = [] ∧
  world_of (CNIPlugins.stateCNIPlugins_Sync skel policy_enabled empty_catalog ["old-ds"]) =
    ["old-ds"].
Proof.
  exact (proj2 (CNIPlugins.Sync_no_static_config_provider_error
                  skel policy_enabled empty_catalog ["old-ds"]
                  (CNIPlugins.mk_SecondaryNetworkSpec (Some "ghcr.io/plugins"))
                  "ghcr.io/plugins" eq_refl eq_refl eq_refl)).
Defined.

Example sync_no_static_config_provider_result :
  result_of (CNIPlugins.stateCNIPlugins_Sync skel policy_enabled empty_catalog ["old-ds"]) =
    (SyncStateError,
     Some (errors_New "unexpected state, catalog does not provide static info")).
Proof. reflexivity. Qed.

Example render_mixed_suffixes :
  render ["a.yaml"; "b.json"; "c.yml"] =
    (["kind: TestObj1"; "{kind: TestObj2}"; "kind: TestObj3"], None).
Proof. vm_compute. reflexivity. Qed.

Example render_any_listing_order :
  render ["c.yml"; "a.yaml"; "b.json"] = render ["a.yaml"; "b.json"; "c.yml"].
Proof. vm_compute. reflexivity. Qed.

Example render_missing :
  render ["doesNotExist.yaml"] = ([], Some (Render.NotFound "doesNotExist.yaml")).
Proof. vm_compute. reflexivity. Qed.

Example render_bad_manifest :
  render ["a.yaml"; "bad.yaml"] = ([], Some (Render.ParseFailure "bad.yaml")).
Proof. vm_compute. reflexivity. Qed.

Example render_invalid_data :
  render ["a.yaml"; "b.json"; "invalid.yaml"] =
    ([], Some (Render.TemplateEvaluation "invalid.yaml")).
Proof. vm_compute. reflexivity. Qed.

Lemma render_ascending_three :
  ∃ objs, render ["a.yaml"; "b.json"; "c.yml"] = (objs, None) ∧ length objs = 3.
Proof.
  destruct (Render.RenderObjects_ascending_path_order manifests engine yaml json
              ["a.yaml"; "b.json"; "c.yml"] ()) as (objs & Hobjs & Hlen & _).
  - repeat (constructor; try exact I).
  - repeat constructor.
  - intros path Hin. decompose_list_elem_of; subst; eexists; reflexivity.
  - exists objs. split; [exact Hobjs | exact Hlen].
Defined.

Lemma render_missing_after_good :
  ∃ err, render ["a.yaml"; "doesNotExist.yaml"] = ([], Some err).
Proof.
  apply (Render.RenderObjects_all_or_nothing manifests engine yaml json
           ["a.yaml"; "doesNotExist.yaml"] () "doesNotExist.yaml").
  - repeat constructor.
  - left. reflexivity.
Defined.

(** *** Further runs of the manager *)

Lemma three_states_watch_sources_union :
  zip (Manager.stateManager_GetWatchSources backwards three_states).2
      (Manager.stateManager_GetWatchSources backwards three_states).1
    ≡ₚ map_to_list (⋃ (Manager.GetWatchSources <$> Manager.states three_states)).
Proof.
  exact (Manager.GetWatchSources_is_union backwards
           (λ m, reverse_Permutation (map_to_list m)) three_states).
Defined.

(** [ConfigMap], declared by [shared_config], stays when two states follow. *)
Lemma shared_config_kind_stays :
  ("ConfigMap", mk_source_Kind "v1.ConfigMap")
    ∈ zip (Manager.stateManager_GetWatchSources map_to_list
             (Manager.mk_stateManager ([shared_config] ++ [cni_plugins; multus]))).2
          (Manager.stateManager_GetWatchSources map_to_list
             (Manager.mk_stateManager ([shared_config] ++ [cni_plugins; multus]))).1.
Proof.
  apply (Manager.GetWatchSources_stable_under_append map_to_list
           (λ m, reflexivity (map_to_list m)) [shared_config] [cni_plugins; multus]).
  vm_compute. repeat constructor.
Defined.

Lemma three_states_backwards :
  (Manager.stateManager_GetWatchSources map_to_list three_states).1
    ≡ₚ (Manager.stateManager_GetWatchSources backwards three_states).1.
Proof.
  apply Manager.GetWatchSources_order_independent.
  - intros m. reflexivity.
  - intros m. apply reverse_Permutation.
Defined.

Example three_states_watch_sources_backwards :
  Manager.stateManager_GetWatchSources backwards three_states =
    ([mk_source_Kind "appsv1.DaemonSet"; mk_source_Kind "v1.ConfigMap"],
     ["DaemonSet"; "ConfigMap"]).
Proof. vm_compute. reflexivity. Qed.

(** *** Further runs of the CNI-plugins state *)

(** The cluster refuses the write: the run ends there, not ready, and the
    cause of the error returned is the refusal. *)
Lemma sync_conflict :
  last (calls_of (CNIPlugins.stateCNIPlugins_Sync skel_conflict policy_enabled catalog []))
    = Some (CNIPlugins.CallCreateOrUpdateObjs ["cni-plugins-ds"]
              (Some (errors_New "conflict"))) ∧
  ∃ e', result_of (CNIPlugins.stateCNIPlugins_Sync skel_conflict policy_enabled catalog [])
          = (SyncStateNotReady, Some e') ∧
        errors_Cause e' = errors_Cause (errors_New "conflict").
Proof.
  apply (CNIPlugins.Sync_error_of_call_is_returned skel_conflict policy_enabled catalog []
           (CNIPlugins.CallCreateOrUpdateObjs ["cni-plugins-ds"]
              (Some (errors_New "conflict")))
           (errors_New "conflict")).
  - reflexivity.
  - vm_compute. repeat constructor.
  - reflexivity.
Defined.

Example sync_conflict_result :
  result_of (CNIPlugins.stateCNIPlugins_Sync skel_conflict policy_enabled catalog []) =
    (SyncStateNotReady,
     Some (errors_Wrap (errors_New "conflict") "failed to create/update objects")).
Proof. vm_compute. reflexivity. Qed.

(** The converged run of [sync_converged]: ready is the verdict of the
    status evaluation. *)
Lemma sync_converged_verdict :
  ∃ objs,
    last (calls_of (CNIPlugins.stateCNIPlugins_Sync skel policy_enabled catalog []))
      = Some (CNIPlugins.CallGetSyncState objs (SyncStateReady, None)) ∧
    result_of (CNIPlugins.stateCNIPlugins_Sync skel policy_enabled catalog [])
      = (SyncStateReady, None).
Proof.
  destruct (CNIPlugins.Sync_status_is_verdict skel policy_enabled catalog []
              SyncStateReady) as [(Herr & _)|Hverdict].
  - reflexivity.
  - vm_compute. reflexivity.
  - intros Heq. discriminate Heq.
  - discriminate Herr.
  - exact Hverdict.
Defined.

Lemma sync_renders_policy_image :
  ∃ secondaryNetwork cniPlugins staticInfo,
    CNIPlugins.SecondaryNetwork (CNIPlugins.Spec policy_enabled) = Some secondaryNetwork ∧
    CNIPlugins.CniPlugins secondaryNetwork = Some cniPlugins ∧
    CNIPlugins.GetStaticConfigProvider catalog = Some staticInfo ∧
    render_data =
      CNIPlugins.mk_CNIPluginsManifestRenderData
        (Some cniPlugins) (CNIPlugins.Tolerations (CNIPlugins.Spec policy_enabled))
        (CNIPlugins.SpecNodeAffinity (CNIPlugins.Spec policy_enabled))
        (CNIPlugins.mk_cniRuntimeSpec (CNIPlugins.NetworkOperatorResourceNamespace skel)
                                      (CNIPlugins.GetCniBinDirectory skel staticInfo)) ∧
    (["cni-plugins-ds"], None) = (CNIPlugins.RenderObjects skel render_data []).1.
Proof.
  apply (CNIPlugins.Sync_render_data skel policy_enabled catalog []
           render_data (["cni-plugins-ds"], None)).
  vm_compute. repeat constructor.
Defined.

(** *** A manager of CNI-plugins states *)

Lemma two_cni_states_watch_DaemonSet :
  Manager.stateManager_GetWatchSources backwards
    (Engine.cniPlugins_manager [skel; skel_no_manifests]) =
    ([mk_source_Kind "appsv1.DaemonSet"], ["DaemonSet"]).
Proof.
  apply Engine.cniPlugins_manager_watches_DaemonSet.
  - intros m. apply reverse_Permutation.
  - intros Heq. discriminate Heq.
Defined.

Lemma two_cni_states_no_provider :
  world_of (Manager.stateManager_SyncState
              (Engine.cniPlugins_manager [skel; skel_conflict])
              policy_enabled empty_catalog ["old-ds"]) = ["old-ds"] ∧
  Results.Status (result_of (Manager.stateManager_SyncState
                               (Engine.cniPlugins_manager [skel; skel_conflict])
                               policy_enabled empty_catalog ["old-ds"]))
    = SyncStateNotReady.
Proof.
  pose proof (Engine.cniPlugins_manager_no_provider [skel; skel_conflict]
                policy_enabled empty_catalog ["old-ds"] eq_refl eq_refl)
    as (Hworld & _ & Hstatus).
  split; [exact Hworld | exact Hstatus].
Defined.

(** *** The validators *)

Example guid_of_another_length :
  Validator.isValidPKeyGUID "02:00:00:00:00:00:00" = false ∧
  Validator.isValidPKeyGUID "02:00:00:00:00:00:00:00:00" = false ∧
  Validator.isValidPKeyGUID "02-00-00-00-00-00-00-00" = false.
Proof. vm_compute. repeat split. Qed.

Lemma guid_pool_order :
  is_Some (Validator.isValidPKeyRange guid_start guid_middle) ∧
  Validator.isValidPKeyRange guid_start guid_start = Some false ∧
  (Validator.isValidPKeyRange guid_start guid_middle = Some true →
   Validator.isValidPKeyRange guid_middle guid_start = Some false) ∧
  (Validator.isValidPKeyRange guid_start guid_middle = Some true →
   Validator.isValidPKeyRange guid_middle guid_end = Some true →
   Validator.isValidPKeyRange guid_start guid_end = Some true).
Proof.
  apply Validator.isValidPKeyRange_strict_order; vm_compute; reflexivity.
Defined.

Example guid_pool_range :
  Validator.isValidPKeyRange guid_start guid_end = Some true ∧
  Validator.isValidPKeyRange guid_end guid_start = Some false.
Proof. vm_compute. split; reflexivity. Qed.

(** A range between a number and a text that is no hexadecimal number meets
    the nil number. *)
Example guid_range_of_ill_formed :
  Validator.isValidPKeyRange "02:00:00:00:00:00:00:0g" guid_end = None ∧
  Validator.isValidPKeyRange guid_start "" = None ∧
  Validator.isValidPKeyRange "0g" "" = Some false.
Proof. vm_compute. repeat split. Qed.

Example ofed_versions :
  Validator.isValidOFEDVersion "23.10-0.5.5.0" = true ∧
  Validator.isValidOFEDVersion "5.9-0.5.6.0.127" = true ∧
  Validator.isValidOFEDVersion "23.10" = false ∧
  Validator.isValidOFEDVersion "23.10-0.5.5.0-1" = false ∧
  Validator.isValidOFEDVersion "v23.10-0.5.5.0" = false.
Proof. vm_compute. repeat split. Qed.

Example resource_names :
  Validator.isValidSriovNetworkDevicePluginResourceName "sriov_network_rdma" = true ∧
  Validator.isValidSriovNetworkDevicePluginResourceName "sriov-network" = false ∧
  Validator.isValidRdmaSharedDevicePluginResourceName "rdma-shared_dev.a" = true ∧
  Validator.isValidRdmaSharedDevicePluginResourceName "_rdma" = false ∧
  Validator.isValidRdmaSharedDevicePluginResourceName "" = false.
Proof. vm_compute. repeat split. Qed.

Lemma fqdn_nvidia_com :
  ∃ label a1 a2 rest,
    String.list_ascii_of_string "nvidia.com" = label ++ "."%char :: a1 :: a2 :: rest ∧
    1 ≤ length label ≤ 63 ∧
    Forall (λ c, Regexp.is_alnum c = true ∨ c = "-"%char) label ∧
    Regexp.is_alpha a1 = true ∧ Regexp.is_alpha a2 = true ∧
    Forall (λ c, Regexp.is_alpha c = true ∨ c = "."%char) rest.
Proof.
  apply Validator.isValidFQDN_shape. vm_compute. reflexivity.
Defined.

(** A digit or a hyphen after the first dot, or no dot at all, is refused. *)
Example fqdn_refused :
  Validator.isValidFQDN "example.k8s.io" = false ∧
  Validator.isValidFQDN "my-registry.example.com" = true ∧
  Validator.isValidFQDN "registry.my-example.com" = false ∧
  Validator.isValidFQDN "localhost" = false.
Proof. vm_compute. repeat split. Qed.

Lemma ofed_repository_reported_elsewhere :
  Validator.Invalid ["spec"; "nicFeatureDiscovery"; "repository"]
      (Validator.BadString "") "invalid container image repository format"
    ∈ PolicyValidator.validateRepositories parses ofed_policy [] ∧
  ["spec"; "ofedDriver"; "repository"]
    ∉ Validator.Field <$> PolicyValidator.validateRepositories parses ofed_policy [].
Proof.
  exact (PolicyValidator.validateRepositories_ofedDriver_field parses ofed_policy []
           ofed_driver eq_refl eq_refl).
Defined.

Lemma container_limits_errors :
  ∃ added,
    ResourceValidator.validateResources backwards container_limits []
      ["spec"; "ofedDriver"] "ofedDriver" "Limits" [container_requests] = [] ++ added ∧
    Forall (λ e, Validator.ErrType e = Validator.ErrorTypeInvalid) added ∧
    length added ≤ 2 * size container_limits ∧
    (added = [] ↔
     ResourceValidator.amounts_ok container_limits
       (if String.eqb "Limits" "Limits" then head [container_requests] else None)).
Proof.
  exact (ResourceValidator.validateResources_spec backwards
           (λ m, reverse_Permutation (map_to_list m))
           container_limits [] ["spec"; "ofedDriver"] "ofedDriver" "Limits"
           [container_requests]).
Defined.

Example container_limits_three_errors :
  length (ResourceValidator.validateResources map_to_list container_limits []
            ["spec"] "ofedDriver" "Limits" [container_requests]) = 3
  ∧ ResourceValidator.validateResources map_to_list container_requests []
      ["spec"] "ofedDriver" "Requests" [] = [].
Proof. vm_compute. split; reflexivity. Qed.

Lemma container_resources_errors :
  ∃ added,
    ResourceValidator.validateResourceRequirements map_to_list container_resources
      ["mofed-container"] [] ["spec"] "ofedDriver" = [] ++ added ∧
    (added = [] ↔
     container_resources ≠ [] ∧
     Forall (λ reqs, ResourceValidator.Name reqs ∈ ["mofed-container"] ∧
                     ResourceValidator.amounts_ok (ResourceValidator.Requests reqs) None ∧
                     ResourceValidator.amounts_ok (ResourceValidator.Limits reqs)
                       (Some (ResourceValidator.Requests reqs)))
            container_resources).
Proof.
  exact (ResourceValidator.validateResourceRequirements_spec map_to_list
           (λ m, reflexivity (map_to_list m))
           container_resources ["mofed-container"] [] ["spec"] "ofedDriver").
Defined.

(** *** Drain *)

(** [node-a] is listed twice: it is asked about twice and drained once. *)
Lemma drain_two_nodes :
  result_of (Drain.ScheduleNodesDrain drain_manager drain_config []) = None ∧
  Drain.asked (calls_of (Drain.ScheduleNodesDrain drain_manager drain_config []))
    = ["node-a"; "node-b"; "node-a"] ∧
  Drain.started (calls_of (Drain.ScheduleNodesDrain drain_manager drain_config []))
    `sublist_of` Drain.Nodes drain_config.
Proof.
  pose proof (Drain.ScheduleNodesDrain_schedule drain_manager drain_config []
                drain_spec eq_refl eq_refl) as (Hres & Hasked & Hstarted & _).
  split; [exact Hres|]. split; [exact Hasked | exact Hstarted].
Defined.

Example drain_two_nodes_started :
  Drain.started (calls_of (Drain.ScheduleNodesDrain drain_manager drain_config []))
    = [Drain.mk_Node "node-a"; Drain.mk_Node "node-b"] ∧
  world_of (Drain.ScheduleNodesDrain drain_manager drain_config [])
    = ["node-b"; "node-a"].
Proof. vm_compute. split; reflexivity. Qed.

Example drain_nil_spec :
  result_of (Drain.ScheduleNodesDrain drain_manager
               (Drain.mk_DrainConfiguration None [Drain.mk_Node "node-a"]) [])
    = Some (errors_New "drain spec should not be empty") ∧
  result_of (Drain.ScheduleNodesDrain drain_manager
               (Drain.mk_DrainConfiguration None []) []) = None.
Proof. split; reflexivity. Qed.

End Examples.
